(** * bppcomp: the directive expansion engine of [bppcomp.py]

    A shallow embedding of [FileProcessor] (src/bppcomp.py) and the
    properties of its expansion loop.

    Modelling conventions.
    - Python [str] is [string]; a character is a code point below 256, with
      the classes [str.isspace] and the [re] module's [\w], [\s] and [.]
      give to it.
    - [re.search] is a backtracking matcher with the priorities of Python's
      engine: leftmost start, greedy and lazy repetition, ordered
      alternation.
    - The object state ([current_path]), the console and the files opened
      are threaded explicitly through every call.
    - [while True] and the recursion through the [file] handlers are run
      with fuel; [OutOfFuel] says nothing about the program, and a run that
      is [OutOfFuel] for every fuel never returns.
    - [eval] is an oracle handed to the engine.  What it answers depends
      on the source text and on the frame of the handler that calls it
      (its [args], its [context], [self]); it raises an [Exception], which
      the handlers catch, or what is no [Exception], which they let
      through, or it gives a value.
    - The call stack of the interpreter is a parameter where the program
      can use it up, in the recursion of [build_pattern]; the recursion
      through the [file] handlers is cut by the program's own test on the
      depth.  Memory is outside the model.
    - A file is known by its name: two names are two files. *)

From Stdlib Require Import ZArith Ascii String List Lia Bool DecimalString.
From stdpp Require Import base option gmap strings.

Import ListNotations.
Local Open Scope Z_scope.

(** ** Characters *)

Module Chars.

Definition code (c : ascii) : N := N_of_ascii c.

Definition in_range (lo hi : N) (c : ascii) : bool :=
  ((lo <=? code c) && (code c <=? hi))%N.

(** [str.isspace] on one character, and [\s] of a [str] pattern. *)
Definition isspace (c : ascii) : bool :=
  in_range 9 13 c || in_range 28 32 c
  || (code c =? 133)%N || (code c =? 160)%N.

Definition isdigit (c : ascii) : bool := in_range 48 57 c.

(** [\w] of a [str] pattern: alphanumeric code points and the underscore. *)
Definition isword (c : ascii) : bool :=
  isdigit c || in_range 65 90 c || in_range 97 122 c || (code c =? 95)%N
  || (code c =? 170)%N || (code c =? 178)%N || (code c =? 179)%N
  || (code c =? 181)%N || (code c =? 185)%N || (code c =? 186)%N
  || in_range 188 190 c || in_range 192 214 c || in_range 216 246 c
  || in_range 248 255 c.

Definition eqc (a c : ascii) : bool := (code a =? code c)%N.

Definition newline : ascii := ascii_of_N 10.

End Chars.

(** ** Strings: slicing and stripping *)

Module Str.

Fixpoint take (n : nat) (s : string) : string :=
  match n, s with
  | S n', String c s' => String c (take n' s')
  | _, _ => EmptyString
  end.

Fixpoint drop (n : nat) (s : string) : string :=
  match n, s with
  | S n', String _ s' => drop n' s'
  | _, _ => s
  end.

Definition is_empty (s : string) : bool :=
  match s with EmptyString => true | _ => false end.

Definition snoc (s : string) (c : ascii) : string :=
  s +:+ String c EmptyString.

Fixpoint lstrip (s : string) : string :=
  match s with
  | String c s' => if Chars.isspace c then lstrip s' else s
  | EmptyString => EmptyString
  end.

Fixpoint rstrip (s : string) : string :=
  match s with
  | String c s' =>
      let r := rstrip s' in
      if is_empty r && Chars.isspace c then EmptyString else String c r
  | EmptyString => EmptyString
  end.

(** [str.strip()] *)
Definition strip (s : string) : string := rstrip (lstrip s).

(** [sep.join(l)] *)
Fixpoint join (sep : string) (l : list string) : string :=
  match l with
  | [] => EmptyString
  | [x] => x
  | x :: l' => x +:+ sep +:+ join sep l'
  end.


Fixpoint is_prefix (p s : string) : bool :=
  match p, s with
  | EmptyString, _ => true
  | String a p', String b s' => Chars.eqc a b && is_prefix p' s'
  | _, _ => false
  end.

(** [p in s] *)
Fixpoint contains (p s : string) : bool :=
  is_prefix p s ||
  match s with
  | EmptyString => false
  | String _ s' => contains p s'
  end.

End Str.

(** ** The regular expression of [parse_directive] *)

Module Re.

Inductive regex : Type :=
| Lit (c : ascii)
| Class (p : ascii -> bool)
| Cat (r1 r2 : regex)
| Alt (r1 r2 : regex)
| Star (r : regex)
| LazyStar (r : regex)
| Group (i : nat) (r : regex).

Definition Plus (r : regex) : regex := Cat r (Star r).

(** A group is kept as the two suffixes of the subject where it started and
    where it ended. *)
Definition captures : Type := list (nat * (string * string)).

Section Backtrack.
Context {R : Type}.

Definition cont : Type := string -> captures -> option R.

(** Greedy repetition: one more round of [body] first, the rest of the
    pattern when that fails.  [n] bounds the rounds; a round of the
    pattern below consumes a character, so the length of the subject is
    enough. *)
Fixpoint star_greedy (body : string -> captures -> cont -> option R)
    (k : cont) (n : nat) (s : string) (caps : captures) : option R :=
  match n with
  | O => k s caps
  | S n' =>
      match body s caps (star_greedy body k n') with
      | Some x => Some x
      | None => k s caps
      end
  end.

(** Lazy repetition: the rest of the pattern first, one more round of
    [body] when that fails. *)
Fixpoint star_lazy (body : string -> captures -> cont -> option R)
    (k : cont) (n : nat) (s : string) (caps : captures) : option R :=
  match n with
  | O => k s caps
  | S n' =>
      match k s caps with
      | Some x => Some x
      | None => body s caps (star_lazy body k n')
      end
  end.

(** [bt r s caps k] matches [r] at the head of [s] and hands what is left
    to [k]; when [k] refuses, the next choice of [r] is tried, in the
    order Python tries them. *)
Fixpoint bt (r : regex) (s : string) (caps : captures) (k : cont)
    : option R :=
  match r with
  | Lit c =>
      match s with
      | String d s' => if Chars.eqc c d then k s' caps else None
      | EmptyString => None
      end
  | Class p =>
      match s with
      | String d s' => if p d then k s' caps else None
      | EmptyString => None
      end
  | Cat r1 r2 => bt r1 s caps (fun s1 caps1 => bt r2 s1 caps1 k)
  | Alt r1 r2 =>
      match bt r1 s caps k with
      | Some x => Some x
      | None => bt r2 s caps k
      end
  | Star r1 => star_greedy (bt r1) k (String.length s) s caps
  | LazyStar r1 => star_lazy (bt r1) k (String.length s) s caps
  | Group i r1 =>
      bt r1 s caps (fun s1 caps1 => k s1 ((i, (s, s1)) :: caps1))
  end.
End Backtrack.

(** Whatever a matcher hands to its continuation is no longer than what
    it was given. *)
Definition shrinking {R : Type}
    (body : string -> captures -> @cont R -> option R) : Prop :=
  forall s caps k x, body s caps k = Some x ->
    exists s' caps', k s' caps' = Some x
                     /\ (String.length s' <= String.length s)%nat.

Record match_object : Type := MatchObject {
  m_start : nat;
  m_end : nat;
  m_caps : captures;
  m_subject : string
}.

(** [re.search]: the first start position, left to right, where the
    pattern matches. *)
Fixpoint search_from (r : regex) (subject : string) (pos : nat) (s : string)
    : option match_object :=
  match bt r s [] (fun s' caps => Some (s', caps)) with
  | Some (s', caps) =>
      Some (MatchObject pos (String.length subject - String.length s')
                        caps subject)
  | None =>
      match s with
      | EmptyString => None
      | String _ s' => search_from r subject (S pos) s'
      end
  end.

Definition search (r : regex) (subject : string) : option match_object :=
  search_from r subject 0 subject.

Fixpoint lookup_group (i : nat) (caps : captures) : option (string * string) :=
  match caps with
  | [] => None
  | (j, g) :: caps' => if Nat.eqb i j then Some g else lookup_group i caps'
  end.

(** [match.group(i)] for [i > 0]; a group that took no part is the empty
    string here (the pattern below has none). *)
Definition group (m : match_object) (i : nat) : string :=
  match lookup_group i (m_caps m) with
  | Some (s0, s1) => Str.take (String.length s0 - String.length s1) s0
  | None => EmptyString
  end.

(** [match.group(0)] *)
Definition group0 (m : match_object) : string :=
  Str.take (m_end m - m_start m) (Str.drop (m_start m) (m_subject m)).

Definition not_newline (c : ascii) : bool := negb (Chars.eqc Chars.newline c).

Definition bare_char (c : ascii) : bool :=
  negb (Chars.eqc "]" c) && negb (Chars.isspace c).

(** The pattern of [parse_directive]: an opening bracket and a dollar,
    group 1 = one or more of [\w_], group 2 = any number (greedy) of
    { one or more [\s], then either a brace literal (an opening brace, a
    lazy run of [.], a closing brace) or one or more of [^\]\s] }, and a
    closing bracket. *)
Definition pattern : regex :=
  Cat (Lit "[")
 (Cat (Lit "$")
 (Cat (Group 1 (Plus (Class (fun c => Chars.isword c || Chars.eqc "_" c))))
 (Cat (Group 2
        (Star (Cat (Plus (Class Chars.isspace))
                   (Alt (Cat (Lit "{")
                        (Cat (LazyStar (Class not_newline)) (Lit "}")))
                        (Plus (Class bare_char))))))
      (Lit "]")))).

End Re.

(** ** [DirectiveMatch] and [parse_directive] *)

Record DirectiveMatch : Type := mkDirectiveMatch {
  full_match : string;
  directive_name : string;
  args : list string;
  start : nat;
  end_ : nat
}.

(** The character loop of [parse_directive]: the arguments found so far,
    the argument being built and the brace flag. *)
Fixpoint split_loop (s : string) (acc : list string) (current_arg : string)
    (in_braces : bool) : list string * string * bool :=
  match s with
  | EmptyString => (acc, current_arg, in_braces)
  | String char s' =>
      if Chars.eqc "{" char then
        split_loop s' acc (Str.snoc current_arg char) true
      else if Chars.eqc "}" char then
        split_loop s' acc (Str.snoc current_arg char) false
      else if Chars.isspace char && negb in_braces then
        if negb (Str.is_empty current_arg)
        then split_loop s' (acc ++ [current_arg]) EmptyString in_braces
        else split_loop s' acc current_arg in_braces
      else split_loop s' acc (Str.snoc current_arg char) in_braces
  end.

Definition split_args (args_str : string) : list string :=
  if Str.is_empty args_str then []
  else
    let '(acc, current_arg, _) := split_loop args_str [] EmptyString false in
    if negb (Str.is_empty current_arg) then acc ++ [current_arg] else acc.

Definition parse_directive (content : string) : option DirectiveMatch :=
  match Re.search Re.pattern content with
  | None => None
  | Some m =>
      let directive_name := Re.group m 1 in
      let args_str := Str.strip (Re.group m 2) in
      Some (mkDirectiveMatch (Re.group0 m) directive_name
                             (split_args args_str) (Re.m_start m) (Re.m_end m))
  end.

(** ** Values, exceptions and outcomes *)

(** The values a scope can hold.  The command line binds strings and the
    integer [_bppcomp]; a dictionary built by [eval] can hold anything, and
    the engine only ever asks such an object for its truth value and for
    [int()] of it. *)
Inductive pyval : Type :=
| VStr (s : string)
| VInt (z : Z)
| VBool (b : bool)
| VNone
| VObj (truth : bool) (as_int : option Z).

Abbreviation scope := (gmap string pyval).

(** [bool(v)] *)
Definition truthy (v : pyval) : bool :=
  match v with
  | VStr s => negb (Str.is_empty s)
  | VInt z => negb (z =? 0)
  | VBool b => b
  | VNone => false
  | VObj t _ => t
  end.

(** The digits of [int(s)]: decimal digits, with single underscores between
    digits only. *)
Fixpoint int_digits (s : string) (acc : Z) (after_digit : bool) : option Z :=
  match s with
  | EmptyString => if after_digit then Some acc else None
  | String c s' =>
      if Chars.isdigit c
      then int_digits s' (10 * acc + (Z.of_N (Chars.code c) - 48)) true
      else if Chars.eqc "_" c && after_digit then int_digits s' acc false
      else None
  end.

(** The characters [int()] skips at both ends of its text: the ASCII
    white space of C (tab to carriage return, and the space) and the two
    other spaces below 256; the separators 28 to 31, which [str.strip]
    removes, make [int()] fail. *)
Definition int_space (c : ascii) : bool :=
  Chars.in_range 9 13 c || (Chars.code c =? 32)%N
  || (Chars.code c =? 133)%N || (Chars.code c =? 160)%N.

Fixpoint int_lstrip (s : string) : string :=
  match s with
  | String c s' => if int_space c then int_lstrip s' else s
  | EmptyString => EmptyString
  end.

Fixpoint int_rstrip (s : string) : string :=
  match s with
  | String c s' =>
      let r := int_rstrip s' in
      if Str.is_empty r && int_space c then EmptyString else String c r
  | EmptyString => EmptyString
  end.

(** [int(s)] for a string: [None] stands for [ValueError]. *)
Definition int_of_str (s : string) : option Z :=
  match int_rstrip (int_lstrip s) with
  | String "-" s' => Z.opp <$> int_digits s' 0 false
  | String "+" s' => int_digits s' 0 false
  | s' => int_digits s' 0 false
  end.

(** [int(v)]: [None] stands for [ValueError] or [TypeError]. *)
Definition py_int (v : pyval) : option Z :=
  match v with
  | VStr s => int_of_str s
  | VInt z => Some z
  | VBool b => Some (if b then 1 else 0)
  | VNone => None
  | VObj _ i => i
  end.

(** [str(n)] for an integer, as an f-string prints it. *)
Definition str_of_int (n : Z) : string := NilZero.string_of_int (Z.to_int n).

Inductive exn : Type :=
| RecursionError (message : string)
| CircularReferenceError (message : string)
| IndexError
| TypeError
| OSError
| BaseException.

Inductive outcome (A : Type) : Type :=
| Ok (a : A)
| Raise (e : exn)
| OutOfFuel.
Arguments Ok {A} a.
Arguments Raise {A} e.
Arguments OutOfFuel {A}.

(** ** The world outside: files, [eval], the console *)

Inductive read_result : Type :=
| FileContent (content : string)
| FileNotFound
| FileUnreadable.

Abbreviation filesystem := (string -> read_result).

(** [eval(source)]: it raises an [Exception], or it raises what is no
    [Exception] ([SystemExit], [KeyboardInterrupt]) and passes every
    [except Exception], or it gives a value of which the engine uses
    [isinstance(_, dict)] with the dictionary, and [str(_)]. *)
Inductive eval_result : Type :=
| EvalRaises
| EvalExits
| EvalValue (as_dict : option scope) (str : string).

(** What [print] is called with; the exact text of a line is kept only
    where the program builds it itself. *)
Inductive event : Type :=
| WarnFileNotFound (filename : string)
| ErrReadingFile (filename : string)
| WarnArgsNotDict (filename : string)
| WarnArgsParse (filename : string)
| ErrProcessing (filename message : string)
| GateTrace (check : string) (sc : scope) (value : pyval)
| ErrGenerate
| ErrEval
| WarnUnknownDirective (name : string)
| ErrProcessingFile
| CopiedOriginal (output : string)
| Success (input output : string) (characters : nat).

(** The state of a [FileProcessor] and of the world it acts on: the stack
    of the sources being expanded, what was printed, and the files
    [open] was called on, each in order.  [processed_files] and [MAX_SIZE]
    are set by [__init__] and never read; they are left out. *)
Record state : Type := mkState {
  current_path : list string;
  console : list event;
  opened : list string
}.

Definition initial : state := mkState [] [] [].

Definition print (e : event) (st : state) : state :=
  mkState (current_path st) (console st ++ [e]) (opened st).

Definition push (filename : string) (st : state) : state :=
  mkState (current_path st ++ [filename]) (console st) (opened st).

(** [self.current_path.pop()] *)
Definition pop (st : state) : state :=
  mkState (removelast (current_path st)) (console st) (opened st).

Definition open_ (filename : string) (st : state) : state :=
  mkState (current_path st) (console st) (opened st ++ [filename]).

Definition on_path (filename : string) (st : state) : bool :=
  existsb (String.eqb filename) (current_path st).

Record Context : Type := mkContext {
  depth : Z;
  ctx_args : scope;
  ctx_filename : string
}.

(** The three places where the program calls [eval]. *)
Inductive site : Type :=
| AtFile
| AtFileif
| AtPythonEval.

(** What an evaluated expression can see: [eval] runs in the frame of the
    handler that calls it, with its [args] and [context] (and what the
    handler has derived from them) and with [self]. *)
Record frame : Type := mkFrame {
  fr_site : site;
  fr_args : list string;
  fr_context : Context;
  fr_self : state
}.

(** The interpreter as the engine meets it: what [eval] answers for a
    source text in a frame, and how many nested calls of [build_pattern]
    the call stack still takes when [_handle_generate_recursive] runs in a
    context, before the interpreter raises its own [RecursionError]. *)
Record evaluator : Type := mkEvaluator {
  run_eval : frame -> string -> eval_result;
  stack_room : Context -> nat
}.

(** ** The engine *)

Section Engine.
Variable fs : filesystem.
Variable eval : evaluator.

(** [read_file_content] *)
Definition read_file_content (filename : string) (st : state)
    : state * string :=
  match fs filename with
  | FileContent content => (open_ filename st, content)
  | FileNotFound =>
      (print (WarnFileNotFound filename) (open_ filename st),
       "[$file " +:+ filename +:+ "]")
  | FileUnreadable =>
      (print (ErrReadingFile filename) (open_ filename st),
       "[$file " +:+ filename +:+ "]")
  end.

(** [build_pattern], the inner function of
    [_generate_repeated_math_pattern].  Each level is one more call on the
    stack of the interpreter; [frames] is the number of calls the stack
    still takes, and [None] is the [RecursionError] the interpreter raises
    when they are used up (as they always are for a negative [n]). *)
Fixpoint build_pattern (frames : nat) (var_name operation : string) (n : Z)
    : option string :=
  match frames with
  | O => None
  | S frames' =>
      if n =? 0 then Some ("[VAR " +:+ var_name +:+ "0]")
      else
        match build_pattern frames' var_name operation (n - 1) with
        | Some inner =>
            Some ("[MATH [VAR " +:+ var_name +:+ str_of_int n +:+ "] "
                  +:+ operation +:+ " " +:+ inner +:+ "]")
        | None => None
        end
  end.

Definition _generate_repeated_math_pattern (frames : nat) (level : Z)
    (var_name operation : string) : option string :=
  if level =? 0 then Some ("[VAR " +:+ var_name +:+ "0]")
  else build_pattern frames var_name operation level.

(** The second (third, for [fileif]) argument of an inclusion: [eval] of
    the literal in the frame of the handler, kept when it is a dictionary;
    an [Exception] is caught and printed, anything else leaves the
    handler. *)
Definition parse_file_args (fr : frame) (filename : string)
    (literal : option string) : state * outcome (option scope) :=
  let st := fr_self fr in
  match literal with
  | None => (st, Ok None)
  | Some src =>
      match run_eval eval fr src with
      | EvalValue (Some d) _ => (st, Ok (Some d))
      | EvalValue None _ => (print (WarnArgsNotDict filename) st, Ok None)
      | EvalRaises => (print (WarnArgsParse filename) st, Ok None)
      | EvalExits => (st, Raise BaseException)
      end
  end.

Section Handlers.
(** The calls the stack of the interpreter still takes when a handler
    runs, and the recursive call [self.process_file_recursive]. *)
Variable frames : nat.
Variable recurse :
  string -> option scope -> Z -> state -> state * outcome string.

(** The [try] around the recursive call of [_handle_file] and
    [_handle_fileif]. *)
Definition include (filename : string) (file_args : option scope)
    (context : Context) (placeholder : string) (st : state)
    : state * outcome pyval :=
  match recurse filename file_args (depth context) st with
  | (st', Ok text) => (st', Ok (VStr text))
  | (st', Raise (CircularReferenceError msg))
  | (st', Raise (RecursionError msg)) =>
      (print (ErrProcessing filename msg) st', Ok (VStr placeholder))
  | (st', Raise e) => (st', Raise e)
  | (st', OutOfFuel) => (st', OutOfFuel)
  end.

Definition _handle_file (args : list string) (context : Context)
    (st : state) : state * outcome pyval :=
  match args with
  | [] => (st, Ok (VStr "[$file missing_filename]"))
  | filename :: rest =>
      match parse_file_args (mkFrame AtFile args context st) filename
              (head rest) with
      | (st1, Ok file_args) =>
          include filename file_args context
                  ("[# $file " +:+ filename +:+ ": infinite loop]") st1
      | (st1, Raise e) => (st1, Raise e)
      | (st1, OutOfFuel) => (st1, OutOfFuel)
      end
  end.

Definition _handle_fileif (args : list string) (context : Context)
    (st : state) : state * outcome pyval :=
  match args with
  | [] => (st, Ok (VStr "[# $file missing_filename]"))
  | [filename] => (st, Raise IndexError)
  | filename :: check :: rest =>
      let value := default (VBool false) (ctx_args context !! check) in
      let st0 := print (GateTrace check (ctx_args context) value) st in
      if negb (truthy value) then (st0, Ok (VStr EmptyString))
      else
        match parse_file_args (mkFrame AtFileif args context st0) filename
                (head rest) with
        | (st1, Ok file_args) =>
            include filename file_args context
                    ("[# $file " +:+ filename +:+ "]") st1
        | (st1, Raise e) => (st1, Raise e)
        | (st1, OutOfFuel) => (st1, OutOfFuel)
        end
  end.

Definition _handle_arg (args : list string) (context : Context)
    (st : state) : state * outcome pyval :=
  match args with
  | [] => (st, Ok (VStr "[# $arg missing_name]"))
  | arg_name :: _ =>
      (st, Ok (default (VStr ("[# $arg " +:+ arg_name +:+ "]"))
                      (ctx_args context !! arg_name)))
  end.

Definition _handle_python_eval (args : list string) (context : Context)
    (st : state) : state * outcome pyval :=
  match args with
  | [] => (st, Ok (VStr "[# $python_eval missing_expression]"))
  | _ =>
      let expression := Str.join " " args in
      match run_eval eval (mkFrame AtPythonEval args context st)
              expression with
      | EvalValue _ text => (st, Ok (VStr text))
      | EvalRaises =>
          (print ErrEval st,
           Ok (VStr ("[# $python_eval " +:+ expression +:+ "]")))
      | EvalExits => (st, Raise BaseException)
      end
  end.

(** The [try] block of [_handle_generate_recursive]: [None] when a
    statement of it raises ([int()] of the level, [args[3]], the
    [RecursionError] of a pattern too deep for the stack), which the
    [except Exception] below it turns into the echo of the arguments. *)
Definition generate_recursive_try (args : list string) (context : Context)
    (st : state) : option (state * outcome pyval) :=
  a0 ← args !! 0%nat;
  level ← py_int (default (VStr "0") (ctx_args context !! a0));
  pattern_type ← args !! 1%nat;
  var_name ← args !! 2%nat;
  operation ← args !! 3%nat;
  if String.eqb pattern_type "math" then
    result ← _generate_repeated_math_pattern frames level var_name operation;
    Some (st, Ok (VStr result))
  else
    Some (st, Ok (VStr ("[$generate_recursive unknown_pattern_type "
                        +:+ pattern_type +:+ "]"))).

Definition _handle_generate_recursive (args : list string)
    (context : Context) (st : state) : state * outcome pyval :=
  if (length args <? 3)%nat
  then (st, Ok (VStr "[$generate_recursive missing_arguments]"))
  else
    match generate_recursive_try args context st with
    | Some r => r
    | None =>
        (print ErrGenerate st,
         Ok (VStr ("[$generate_recursive " +:+ Str.join " " args +:+ "]")))
    end.

(** The handlers [__init__] registers. *)
Inductive handler : Type :=
| HFile | HFileif | HArg | HPythonEval | HGenerateRecursive.

Definition register_directive (name : string) (h : handler)
    (directives : gmap string handler) : gmap string handler :=
  <[name := h]> directives.

Definition directives : gmap string handler :=
  register_directive "generate_recursive" HGenerateRecursive
 (register_directive "python_eval" HPythonEval
 (register_directive "arg" HArg
 (register_directive "fileif" HFileif
 (register_directive "file" HFile ∅)))).

Definition call (h : handler)
    : list string -> Context -> state -> state * outcome pyval :=
  match h with
  | HFile => _handle_file
  | HFileif => _handle_fileif
  | HArg => _handle_arg
  | HPythonEval => _handle_python_eval
  | HGenerateRecursive => _handle_generate_recursive
  end.

(** One pass of the [while True] loop: the handler's answer for the
    directive found. *)
Definition dispatch (m : DirectiveMatch) (context : Context) (st : state)
    : state * outcome pyval :=
  match directives !! directive_name m with
  | Some h => call h (args m) context st
  | None =>
      (print (WarnUnknownDirective (directive_name m)) st,
       Ok (VStr (full_match m)))
  end.

Definition splice (content : string) (m : DirectiveMatch)
    (replacement : string) : string :=
  Str.take (start m) content +:+ replacement
    +:+ Str.drop (end_ m) content.

(** The [while True] loop of [process_file_recursive]; [n] bounds the
    number of passes. *)
Fixpoint expand_loop (n : nat) (content : string) (context : Context)
    (st : state) : state * outcome string :=
  match n with
  | O => (st, OutOfFuel)
  | S n' =>
      match parse_directive content with
      | None => (st, Ok content)
      | Some m =>
          match dispatch m context st with
          | (st', Ok (VStr replacement)) =>
              expand_loop n' (splice content m replacement) context st'
          | (st', Ok _) => (st', Raise TypeError)
          | (st', Raise e) => (st', Raise e)
          | (st', OutOfFuel) => (st', OutOfFuel)
          end
      end
  end.
End Handlers.

Definition depth_message : string := "Maximum recursion depth exceeded".

Definition circular_message (st : state) (filename : string) : string :=
  "Circular reference detected: "
    +:+ Str.join " -> " (current_path st ++ [filename]).

Fixpoint process_file_recursive (fuel : nat) (filename : string)
    (args : option scope) (depth : Z) (st : state)
    : state * outcome string :=
  match fuel with
  | O => (st, OutOfFuel)
  | S fuel' =>
      if depth >? 100 then (st, Raise (RecursionError depth_message))
      else if on_path filename st
      then (st, Raise (CircularReferenceError (circular_message st filename)))
      else
        let '(st1, content) := read_file_content filename (push filename st) in
        let context := mkContext (depth + 1) (default ∅ args) filename in
        match expand_loop (stack_room eval context)
                          (process_file_recursive fuel')
                          fuel' content context st1 with
        | (st2, Ok content') => (pop st2, Ok content')
        | (st2, Raise e) => (st2, Raise e)
        | (st2, OutOfFuel) => (st2, OutOfFuel)
        end
  end.

(** [process_file]: the answer is the text the output file holds at the
    end (the file is taken to be writable).  When the expansion fails with
    an [Exception], the input is opened again, the output is opened for
    writing, which empties it, and what is then read from the input is
    written: nothing, when the two are one file.  What is no [Exception]
    passes, and nothing is written. *)
Definition process_file (fuel : nat) (input_filename output_filename : string)
    (initial_args : option scope) (st : state) : state * outcome string :=
  match process_file_recursive fuel input_filename initial_args 0 st with
  | (st', Ok processed_content) =>
      (print (Success input_filename output_filename
                      (String.length processed_content)) st',
       Ok processed_content)
  | (st', Raise BaseException) => (st', Raise BaseException)
  | (st', Raise _) =>
      let st'' := open_ input_filename (print ErrProcessingFile st') in
      match fs input_filename with
      | FileContent original =>
          (print (CopiedOriginal output_filename) st'',
           Ok (if String.eqb output_filename input_filename
               then EmptyString else original))
      | _ => (st'', Raise OSError)
      end
  | (st', OutOfFuel) => (st', OutOfFuel)
  end.
End Engine.

(** ** Worlds for the examples *)

(** A file system that holds the listed files and nothing else. *)
Fixpoint files (l : list (string * string)) : filesystem :=
  fun name =>
    match l with
    | [] => FileNotFound
    | (n, content) :: l' =>
        if String.eqb name n then FileContent content else files l' name
    end.

(** An interpreter whose [eval] raises an [Exception] on every source,
    and whose stack takes a thousand more calls. *)
Definition no_eval : evaluator :=
  mkEvaluator (fun _ _ => EvalRaises) (fun _ => 1000%nat).

(** An interpreter in which every evaluated expression exits
    ([SystemExit]). *)
Definition exits_eval : evaluator :=
  mkEvaluator (fun _ _ => EvalExits) (fun _ => 1000%nat).

Fixpoint literal_answer (l : list (string * scope)) (src : string)
    : eval_result :=
  match l with
  | [] => EvalRaises
  | (lit, d) :: l' =>
      if String.eqb src lit then EvalValue (Some d) lit
      else literal_answer l' src
  end.

(** An interpreter whose [eval] knows the dictionary literals listed, in
    every frame. *)
Definition eval_literals (l : list (string * scope)) : evaluator :=
  mkEvaluator (fun _ => literal_answer l) (fun _ => 1000%nat).

(** ** Predicates of the statements *)

(** The two conditions the [file] and [fileif] handlers catch. *)
Definition caught (e : exn) : bool :=
  match e with
  | RecursionError _ | CircularReferenceError _ => true
  | _ => false
  end.

(** The call came back, normally or with a condition the inclusion
    handlers catch. *)
Definition settled {A : Type} (o : outcome A) : Prop :=
  match o with
  | Ok _ => True
  | Raise e => caught e = true
  | OutOfFuel => False
  end.

Definition balanced
    (recurse : string -> option scope -> Z -> state -> state * outcome string)
    : Prop :=
  forall filename file_args d st st' o,
    recurse filename file_args d st = (st', o) ->
    settled o -> current_path st' = current_path st.

Definition refines
    (r1 r2 : string -> option scope -> Z -> state -> state * outcome string)
    : Prop :=
  forall filename file_args d st st' o,
    r1 filename file_args d st = (st', o) -> o <> OutOfFuel ->
    r2 filename file_args d st = (st', o).

(** The loop makes no progress on [content], whatever the fuel. *)
Definition loops_forever (eval : evaluator) (content : string) : Prop :=
  forall fuel recurse n context st,
    snd (expand_loop eval fuel recurse n content context st) = OutOfFuel.

Definition chain_name (k : nat) : string := "f" +:+ str_of_int (Z.of_nat k).

(** [n] sources [f0], [f1], ..., each holding the inclusion of the next;
    the one the last names does not exist. *)
Definition chain (n : nat) : filesystem :=
  files (map (fun k => (chain_name k,
                        "[$file " +:+ chain_name (S k) +:+ "]"))
             (seq 0 n)).


(** ** The scope [main] starts from *)

(** The two entries [main] puts in the scope before the definitions of the
    command line. *)
Definition fixed_args : scope :=
  <["_bppcomp" := VInt 1]> (<["_preproc_version" := VStr "2024.11.23.1"]> ∅).

(** [initial_args] of [main] once the loop over [args.define] is done:
    each pair of the command line, in order, is stored as a string. *)
Definition initial_args (define : list (string * string)) : scope :=
  foldl (fun acc kv => <[kv.1 := VStr kv.2]> acc) fixed_args define.

(** ** More predicates *)

Fixpoint string_all (p : ascii -> bool) (s : string) : bool :=
  match s with
  | EmptyString => true
  | String c s' => p c && string_all p s'
  end.

Definition not_brace (c : ascii) : bool :=
  negb (Chars.eqc "{" c) && negb (Chars.eqc "}" c).

Definition not_space (c : ascii) : bool := negb (Chars.isspace c).

(** Every value of the scope is a string. *)
Definition str_scope (sc : scope) : Prop :=
  forall k v, sc !! k = Some v -> exists s, v = VStr s.

(** Every dictionary [eval] gives holds strings only. *)
Definition str_eval (eval : evaluator) : Prop :=
  forall fr src d text,
    run_eval eval fr src = EvalValue (Some d) text -> str_scope d.

(** The exceptions of a handler that no handler catches. *)
Definition uncaught (e : exn) : Prop :=
  e = IndexError \/ e = TypeError \/ e = BaseException.

(** The stack of [st'] is the stack of [st] with, maybe, sources added at
    its end, and no source is on it twice when none was. *)
Definition stack_grows (st st' : state) : Prop :=
  current_path st `prefix_of` current_path st'
  /\ (NoDup (current_path st) -> NoDup (current_path st')).

(** What a handler answers in a scope of strings is a string, and what it
    raises is no [TypeError]. *)
Definition answers_string (o : outcome pyval) : Prop :=
  match o with
  | Ok v => exists s, v = VStr s
  | Raise e => e <> TypeError
  | OutOfFuel => True
  end.








(** What stands between two arguments: spaces, one at least. *)
Definition separator (sep : string) : bool :=
  negb (Str.is_empty sep) && string_all Chars.isspace sep.


(** The same text without its first separator. *)
Fixpoint written (t : string) (more : list (string * string)) : string :=
  match more with
  | [] => t
  | (sep, t') :: more' => t +:+ sep +:+ written t' more'
  end.

(** An argument that holds neither space nor brace. *)
Definition word (t : string) : bool :=
  negb (Str.is_empty t) && string_all not_space t && string_all not_brace t.


(** [t] begins and ends with a character that is no space, and the loop of
    [parse_directive], meeting it outside braces, takes it in one piece
    into the argument it is building. *)
Definition whole (t : string) : Prop :=
  (exists c t', t = String c t' /\ Chars.isspace c = false)
  /\ (exists a c, t = a +:+ String c EmptyString /\ Chars.isspace c = false)
  /\ forall acc cur rest,
       split_loop (t +:+ rest) acc cur false
       = split_loop rest acc (cur +:+ t) false.

(** * Properties *)

(** ** Strings *)

Module StrFacts.

Lemma take_drop (n : nat) (s : string) : Str.take n s +:+ Str.drop n s = s.
Proof.
  revert s; induction n as [|n IH]; intros [|c s]; try reflexivity.
  change (String c (Str.take n s +:+ Str.drop n s) = String c s).
  now rewrite IH.
Qed.

Lemma drop_drop (a b : nat) (s : string) :
  Str.drop b (Str.drop a s) = Str.drop (a + b) s.
Proof.
  revert s; induction a as [|a IH]; intros s; simpl; [reflexivity|].
  destruct s as [|c s]; [now destruct b|apply IH].
Qed.

Lemma take_span (a b : nat) (s : string) :
  (a <= b)%nat ->
  Str.take a s +:+ Str.take (b - a) (Str.drop a s) +:+ Str.drop b s = s.
Proof.
  intros Hab.
  replace (Str.drop b s) with (Str.drop (b - a) (Str.drop a s)).
  - now rewrite take_drop, take_drop.
  - rewrite drop_drop. f_equal. lia.
Qed.

End StrFacts.

(** ** The matcher only moves forward *)

Module ReFacts.
Import Re.

Section Shrinking.
Context {R : Type}.

Lemma star_greedy_shrinking body (k : @cont R) :
  shrinking body ->
  forall n s caps x, star_greedy body k n s caps = Some x ->
    exists s' caps', k s' caps' = Some x
                     /\ (String.length s' <= String.length s)%nat.
Proof.
  intros Hb; induction n as [|n IH]; intros s caps x H; simpl in H.
  - eauto.
  - destruct (body s caps (star_greedy body k n)) as [y|] eqn:E.
    + inversion H; subst y.
      apply Hb in E as (s1 & c1 & E1 & L1).
      apply IH in E1 as (s2 & c2 & E2 & L2).
      exists s2, c2; split; [assumption|lia].
    + eauto.
Qed.

Lemma star_lazy_shrinking body (k : @cont R) :
  shrinking body ->
  forall n s caps x, star_lazy body k n s caps = Some x ->
    exists s' caps', k s' caps' = Some x
                     /\ (String.length s' <= String.length s)%nat.
Proof.
  intros Hb; induction n as [|n IH]; intros s caps x H; simpl in H.
  - eauto.
  - destruct (k s caps) as [y|] eqn:E.
    + inversion H; subst y. eauto.
    + apply Hb in H as (s1 & c1 & E1 & L1).
      apply IH in E1 as (s2 & c2 & E2 & L2).
      exists s2, c2; split; [assumption|lia].
Qed.

Lemma bt_shrinking (r : regex) : shrinking (R:=R) (bt r).
Proof.
  induction r as [c|p|r1 IH1 r2 IH2|r1 IH1 r2 IH2|r IH|r IH|i r IH];
    intros s caps k x H; simpl in H.
  - destruct s as [|d s]; [discriminate|].
    destruct (Chars.eqc c d); [|discriminate].
    exists s, caps; split; [assumption|simpl; lia].
  - destruct s as [|d s]; [discriminate|].
    destruct (p d); [|discriminate].
    exists s, caps; split; [assumption|simpl; lia].
  - apply IH1 in H as (s1 & c1 & H1 & L1).
    apply IH2 in H1 as (s2 & c2 & H2 & L2).
    exists s2, c2; split; [assumption|lia].
  - destruct (bt r1 s caps k) as [y|] eqn:E.
    + inversion H; subst y. now apply IH1 in E.
    + now apply IH2 in H.
  - eapply star_greedy_shrinking; eauto.
  - eapply star_lazy_shrinking; eauto.
  - apply IH in H as (s1 & c1 & H1 & L1). eauto.
Qed.
End Shrinking.

Lemma search_from_span (r : regex) (subject : string) :
  forall s pos m,
    search_from r subject pos s = Some m ->
    (pos + String.length s = String.length subject)%nat ->
    (m_start m <= m_end m <= String.length subject)%nat
    /\ m_subject m = subject.
Proof.
  induction s as [|c s IH]; intros pos m H L; simpl in H.
  - destruct (bt r EmptyString [] _) as [[s' caps]|] eqn:E; [|discriminate].
    inversion H; subst m; simpl.
    apply bt_shrinking in E as (s1 & c1 & E1 & L1).
    inversion E1; subst. simpl in *. split; [lia|reflexivity].
  - destruct (bt r (String c s) [] _) as [[s' caps]|] eqn:E.
    + inversion H; subst m; simpl.
      apply bt_shrinking in E as (s1 & c1 & E1 & L1).
      inversion E1; subst. simpl in *. split; [lia|reflexivity].
    + apply IH in H; [assumption|simpl in L; lia].
Qed.

End ReFacts.

Lemma parse_directive_span (content : string) (m : DirectiveMatch) :
  parse_directive content = Some m ->
  (start m <= end_ m <= String.length content)%nat
  /\ full_match m
     = Str.take (end_ m - start m) (Str.drop (start m) content).
Proof.
  unfold parse_directive, Re.search.
  destruct (Re.search_from _ _ _ _) as [mo|] eqn:E; [|discriminate].
  intros H; inversion H; subst m; simpl.
  apply ReFacts.search_from_span in E as [B S]; [|reflexivity].
  unfold Re.group0. rewrite S. split; [assumption|reflexivity].
Qed.

(** Putting the matched text back where it was found changes nothing. *)
Lemma splice_full_match (content : string) (m : DirectiveMatch) :
  parse_directive content = Some m ->
  splice content m (full_match m) = content.
Proof.
  intros H. apply parse_directive_span in H as [[B _] ->].
  unfold splice. now apply StrFacts.take_span.
Qed.

(** ** What the engine lets through *)

Section EngineFacts.
Variable fs : filesystem.
Variable eval : evaluator.

Lemma parse_file_args_path fr filename literal :
  current_path (fst (parse_file_args eval fr filename literal))
  = current_path (fr_self fr).
Proof.
  unfold parse_file_args.
  destruct literal as [src|]; [|reflexivity].
  destruct (run_eval eval fr src) as [| |[d|] text]; reflexivity.
Qed.

(** The evaluation of the literal lets nothing through but what is no
    [Exception]. *)
Lemma parse_file_args_raises fr filename literal st e :
  parse_file_args eval fr filename literal = (st, Raise e) ->
  e = BaseException.
Proof.
  unfold parse_file_args.
  destruct literal as [src|]; [|discriminate].
  destruct (run_eval eval fr src) as [| |[d|] text]; try discriminate.
  intros H; inversion H; reflexivity.
Qed.

Lemma parse_file_args_answers fr filename literal st :
  parse_file_args eval fr filename literal <> (st, OutOfFuel).
Proof.
  unfold parse_file_args.
  destruct literal as [src|]; [|discriminate].
  destruct (run_eval eval fr src) as [| |[d|] text]; discriminate.
Qed.

Section WithRecurse.
Variable fuel : nat.
Variable recurse :
  string -> option scope -> Z -> state -> state * outcome string.

Lemma include_never_escapes filename file_args context placeholder st st' e :
  include recurse filename file_args context placeholder st
    = (st', Raise e) ->
  caught e = false.
Proof.
  unfold include.
  destruct (recurse _ _ _ _) as [st1 [text|e1|]]; try discriminate.
  destruct e1; intros H; inversion H; reflexivity.
Qed.

Lemma call_never_escapes h args0 context st st' e :
  call eval fuel recurse h args0 context st = (st', Raise e) ->
  caught e = false.
Proof.
  destruct h; simpl.
  - unfold _handle_file. destruct args0 as [|filename rest]; [discriminate|].
    destruct (parse_file_args _ _ _ _) as [st1 [fa|e1|]] eqn:PF;
      [apply include_never_escapes| |discriminate].
    apply parse_file_args_raises in PF. subst e1.
    intros H; inversion H; reflexivity.
  - unfold _handle_fileif.
    destruct args0 as [|filename [|check rest]]; [discriminate| |].
    + intros H; inversion H; reflexivity.
    + destruct (negb _); [discriminate|].
      destruct (parse_file_args _ _ _ _) as [st1 [fa|e1|]] eqn:PF;
        [apply include_never_escapes| |discriminate].
      apply parse_file_args_raises in PF. subst e1.
      intros H; inversion H; reflexivity.
  - unfold _handle_arg. destruct args0; discriminate.
  - unfold _handle_python_eval. destruct args0; [discriminate|].
    destruct (run_eval _ _ _); try discriminate.
    intros H; inversion H; reflexivity.
  - unfold _handle_generate_recursive, generate_recursive_try.
    destruct (_ <? _)%nat; [discriminate|].
    destruct (args0 !! 0%nat) as [a0|]; simpl; [|discriminate].
    destruct (py_int _) as [level|]; simpl; [|discriminate].
    destruct (args0 !! 1%nat) as [pt|]; simpl; [|discriminate].
    destruct (args0 !! 2%nat) as [vn|]; simpl; [|discriminate].
    destruct (args0 !! 3%nat) as [op|]; simpl; [|discriminate].
    destruct (String.eqb _ _); [|discriminate].
    destruct (_generate_repeated_math_pattern _ _ _ _); simpl; discriminate.
Qed.

Lemma dispatch_never_escapes m context st st' e :
  dispatch eval fuel recurse m context st = (st', Raise e) ->
  caught e = false.
Proof.
  unfold dispatch. destruct (directives !! _) as [h|]; [|discriminate].
  apply call_never_escapes.
Qed.

(** No [RecursionError] and no [CircularReferenceError] leaves the
    loop: every one raised below it stops at an inclusion handler. *)
Lemma expand_loop_never_escapes n :
  forall content context st st' e,
    expand_loop eval fuel recurse n content context st = (st', Raise e) ->
    caught e = false.
Proof.
  induction n as [|n IH]; intros content context st st' e; simpl.
  - discriminate.
  - destruct (parse_directive content) as [m|]; [|discriminate].
    destruct (dispatch _ _ _ _ _ _) as [st1 [[text|z|b| |t i]|e1|]] eqn:D;
      try discriminate.
    + apply IH.
    + intros H; inversion H; reflexivity.
    + intros H; inversion H; reflexivity.
    + intros H; inversion H; reflexivity.
    + intros H; inversion H; reflexivity.
    + intros H; inversion H; subst.
      eapply dispatch_never_escapes; eassumption.
Qed.

Hypothesis recurse_balanced : balanced recurse.

Lemma include_balanced filename file_args context placeholder st st' v :
  include recurse filename file_args context placeholder st
    = (st', Ok v) ->
  current_path st' = current_path st.
Proof.
  unfold include.
  destruct (recurse _ _ _ _) as [st1 o] eqn:E.
  destruct o as [text|e1|]; try discriminate.
  - intros H; inversion H; subst.
    eapply recurse_balanced; [eassumption|exact I].
  - destruct e1; intros H; inversion H; subst; simpl;
      (eapply recurse_balanced; [eassumption|reflexivity]).
Qed.

Lemma call_balanced h args0 context st st' v :
  call eval fuel recurse h args0 context st = (st', Ok v) ->
  current_path st' = current_path st.
Proof.
  destruct h; simpl.
  - unfold _handle_file. destruct args0 as [|filename rest].
    + intros H; inversion H; reflexivity.
    + match goal with
      | |- context [parse_file_args _ ?fr _ _] =>
          pose proof (parse_file_args_path fr filename (head rest)) as P
      end.
      destruct (parse_file_args _ _ _ _) as [st1 [fa|e1|]]; simpl in P;
        try discriminate.
      intros H; apply include_balanced in H. congruence.
  - unfold _handle_fileif.
    destruct args0 as [|filename [|check rest]]; try discriminate.
    + intros H; inversion H; reflexivity.
    + destruct (negb _).
      * intros H; inversion H; reflexivity.
      * match goal with
        | |- context [parse_file_args _ ?fr _ _] =>
            pose proof (parse_file_args_path fr filename (head rest)) as P
        end.
        destruct (parse_file_args _ _ _ _) as [st1 [fa|e1|]]; simpl in P;
          try discriminate.
        intros H; apply include_balanced in H. congruence.
  - unfold _handle_arg.
    destruct args0; intros H; inversion H; reflexivity.
  - unfold _handle_python_eval.
    destruct args0; [intros H; inversion H; reflexivity|].
    destruct (run_eval _ _ _); intros H; inversion H; reflexivity.
  - unfold _handle_generate_recursive, generate_recursive_try.
    destruct (_ <? _)%nat; [intros H; inversion H; reflexivity|].
    destruct (args0 !! 0%nat) as [a0|]; simpl;
      [|intros H; inversion H; reflexivity].
    destruct (py_int _) as [level|]; simpl;
      [|intros H; inversion H; reflexivity].
    destruct (args0 !! 1%nat) as [pt|]; simpl;
      [|intros H; inversion H; reflexivity].
    destruct (args0 !! 2%nat) as [vn|]; simpl;
      [|intros H; inversion H; reflexivity].
    destruct (args0 !! 3%nat) as [op|]; simpl;
      [|intros H; inversion H; reflexivity].
    destruct (String.eqb _ _); [|intros H; inversion H; reflexivity].
    destruct (_generate_repeated_math_pattern _ _ _ _); simpl;
      intros H; inversion H; reflexivity.
Qed.

Lemma expand_loop_balanced n :
  forall content context st st' text,
    expand_loop eval fuel recurse n content context st = (st', Ok text) ->
    current_path st' = current_path st.
Proof.
  induction n as [|n IH]; intros content context st st' text; simpl.
  - discriminate.
  - destruct (parse_directive content) as [m|].
    + destruct (dispatch _ _ _ _ _ _) as [st1 [[r|z|b| |t i]|e1|]] eqn:D;
        try discriminate.
      intros H; apply IH in H. rewrite H.
      unfold dispatch in D. destruct (directives !! _) as [h|].
      * eapply call_balanced; eassumption.
      * inversion D; reflexivity.
    + intros H; inversion H; reflexivity.
Qed.
End WithRecurse.

Lemma read_file_content_path filename st :
  current_path (fst (read_file_content fs filename st)) = current_path st.
Proof.
  unfold read_file_content. destruct (fs filename); reflexivity.
Qed.

(** A call that comes back, normally or with a condition the inclusion
    handlers catch, leaves [current_path] as it found it. *)
Lemma process_file_recursive_balanced fuel :
  balanced (process_file_recursive fs eval fuel).
Proof.
  induction fuel as [|fuel IH];
    intros filename file_args d st st' o; simpl.
  - intros H; inversion H; subst; contradiction.
  - destruct (d >? 100); [intros H; inversion H; reflexivity|].
    destruct (on_path filename st); [intros H; inversion H; reflexivity|].
    pose proof (read_file_content_path filename (push filename st)) as P.
    destruct (read_file_content _ _ _) as [st1 content]; simpl in P.
    destruct (expand_loop _ _ _ _ _ _ _) as [st2 [text|e|]] eqn:L;
      intros H; inversion H; subst; simpl; intros S.
    + apply expand_loop_balanced in L; [|exact IH].
      rewrite L, P. simpl. apply removelast_last.
    + apply expand_loop_never_escapes in L. congruence.
    + contradiction.
Qed.
End EngineFacts.

(** ** More fuel changes no answer *)

Section Fuel.
Variable fs : filesystem.
Variable eval : evaluator.

Lemma build_pattern_mono var_name operation :
  forall f1 f2 n r,
    (f1 <= f2)%nat ->
    build_pattern f1 var_name operation n = Some r ->
    build_pattern f2 var_name operation n = Some r.
Proof.
  induction f1 as [|f1 IH]; intros f2 n r Hle; simpl; [discriminate|].
  destruct f2 as [|f2]; [lia|]. simpl.
  destruct (n =? 0); [trivial|].
  destruct (build_pattern f1 _ _ _) as [inner|] eqn:E; [|discriminate].
  rewrite (IH f2 (n - 1) inner); [trivial|lia|assumption].
Qed.

Section Step.
Variable frames : nat.
Variables r1 r2 :
  string -> option scope -> Z -> state -> state * outcome string.
Hypothesis r1_r2 : refines r1 r2.

Lemma include_mono filename file_args context placeholder st st' o :
  include r1 filename file_args context placeholder st = (st', o) ->
  o <> OutOfFuel ->
  include r2 filename file_args context placeholder st = (st', o).
Proof.
  unfold include.
  destruct (r1 _ _ _ _) as [st1 o1] eqn:E.
  destruct o1 as [text|e|].
  - rewrite (r1_r2 _ _ _ _ _ _ E); [trivial|discriminate].
  - rewrite (r1_r2 _ _ _ _ _ _ E); [trivial|discriminate].
  - intros H Hn; inversion H; subst; contradiction.
Qed.

Lemma call_mono h args0 context st st' o :
  call eval frames r1 h args0 context st = (st', o) -> o <> OutOfFuel ->
  call eval frames r2 h args0 context st = (st', o).
Proof.
  destruct h; simpl.
  - unfold _handle_file. destruct args0 as [|filename rest]; [trivial|].
    destruct (parse_file_args _ _ _ _) as [st1 [fa|e1|]]; trivial.
    apply include_mono.
  - unfold _handle_fileif.
    destruct args0 as [|filename [|check rest]]; trivial.
    destruct (negb _); [trivial|].
    destruct (parse_file_args _ _ _ _) as [st1 [fa|e1|]]; trivial.
    apply include_mono.
  - trivial.
  - trivial.
  - trivial.
Qed.

Lemma dispatch_mono m context st st' o :
  dispatch eval frames r1 m context st = (st', o) -> o <> OutOfFuel ->
  dispatch eval frames r2 m context st = (st', o).
Proof.
  unfold dispatch. destruct (directives !! _) as [h|]; [|trivial].
  apply call_mono.
Qed.

Lemma expand_loop_mono :
  forall n1 n2 content context st st' o,
    (n1 <= n2)%nat ->
    expand_loop eval frames r1 n1 content context st = (st', o) ->
    o <> OutOfFuel ->
    expand_loop eval frames r2 n2 content context st = (st', o).
Proof.
  induction n1 as [|n1 IH]; intros n2 content context st st' o Hle; simpl.
  - intros H Hn; inversion H; subst; contradiction.
  - destruct n2 as [|n2]; [lia|]. simpl.
    destruct (parse_directive content) as [m|]; [|trivial].
    destruct (dispatch eval frames r1 _ _ _) as [st1 o1] eqn:D.
    destruct o1 as [v|e|].
    + rewrite (dispatch_mono _ _ _ _ _ D); [|discriminate].
      destruct v; trivial. apply IH. lia.
    + rewrite (dispatch_mono _ _ _ _ _ D); [trivial|discriminate].
    + intros H Hn; inversion H; subst; contradiction.
Qed.
End Step.

(** An answer found with some fuel is the answer with any more. *)
Lemma process_file_recursive_mono :
  forall f1 f2, (f1 <= f2)%nat ->
    refines (process_file_recursive fs eval f1)
            (process_file_recursive fs eval f2).
Proof.
  induction f1 as [|f1 IH]; intros f2 Hle filename file_args d st st' o;
    simpl.
  - intros H Hn; inversion H; subst; contradiction.
  - destruct f2 as [|f2]; [lia|]. simpl.
    destruct (d >? 100); [trivial|].
    destruct (on_path filename st); [trivial|].
    destruct (read_file_content _ _ _) as [st1 content].
    destruct (expand_loop _ _ _ f1 _ _ _) as [st2 o2] eqn:L.
    assert (Hle' : (f1 <= f2)%nat) by lia.
    destruct o2 as [text|e|].
    + rewrite (expand_loop_mono _ _ _ (IH f2 Hle')
                 f1 f2 _ _ _ _ _ Hle' L); [trivial|discriminate].
    + rewrite (expand_loop_mono _ _ _ (IH f2 Hle')
                 f1 f2 _ _ _ _ _ Hle' L); [trivial|discriminate].
    + intros H Hn; inversion H; subst; contradiction.
Qed.

(** What a run with fuel [f] answers, every run with at least that fuel
    answers. *)
Lemma enough_fuel f filename file_args d st st' o :
  process_file_recursive fs eval f filename file_args d st = (st', o) ->
  o <> OutOfFuel ->
  forall f', (f <= f')%nat ->
    process_file_recursive fs eval f' filename file_args d st = (st', o).
Proof.
  intros H Hn f' Hle.
  exact (process_file_recursive_mono f f' Hle _ _ _ _ _ _ H Hn).
Qed.

(** ** A pass that changes nothing is repeated for ever *)

Lemma expand_loop_stuck fuel recurse content context m replacement :
  parse_directive content = Some m ->
  (forall st, exists st',
      dispatch eval fuel recurse m context st = (st', Ok (VStr replacement))) ->
  splice content m replacement = content ->
  forall n st,
    snd (expand_loop eval fuel recurse n content context st) = OutOfFuel.
Proof.
  intros P D S; induction n as [|n IH]; intros st; simpl; [reflexivity|].
  rewrite P. destruct (D st) as [st' ->]. rewrite S. apply IH.
Qed.
End Fuel.

(** ** Runs that never return *)

Section Runs.
Variable fs : filesystem.
Variable eval : evaluator.

Lemma expand_loop_step fuel recurse n content context st m st' replacement :
  parse_directive content = Some m ->
  dispatch eval fuel recurse m context st = (st', Ok (VStr replacement)) ->
  expand_loop eval fuel recurse (S n) content context st
  = expand_loop eval fuel recurse n (splice content m replacement)
                context st'.
Proof. intros P D. simpl. now rewrite P, D. Qed.

Lemma loops_forever_never_returns filename content :
  fs filename = FileContent content ->
  loops_forever eval content ->
  forall fuel file_args d st text,
    snd (process_file_recursive fs eval fuel filename file_args d st)
    <> Ok text.
Proof.
  intros F L fuel file_args d st text.
  destruct fuel as [|fuel]; simpl; [discriminate|].
  destruct (d >? 100); [discriminate|].
  destruct (on_path filename st); [discriminate|].
  unfold read_file_content. rewrite F.
  specialize (L (stack_room eval
                   (mkContext (d + 1) (default ∅ file_args) filename))
                (process_file_recursive fs eval fuel) fuel
                (mkContext (d + 1) (default ∅ file_args) filename)
                (open_ filename (push filename st))).
  destruct (expand_loop _ _ _ _ _ _ _) as [st2 o]; simpl in L; subst o.
  discriminate.
Qed.

(** At the top of the stack such a source gives no answer at all: no
    buffer and no exception. *)
Lemma loops_forever_diverges filename content :
  fs filename = FileContent content ->
  loops_forever eval content ->
  forall fuel file_args d st,
    d <= 100 -> on_path filename st = false ->
    snd (process_file_recursive fs eval fuel filename file_args d st)
    = OutOfFuel.
Proof.
  intros F L fuel file_args d st Hd Hp.
  destruct fuel as [|fuel]; simpl; [reflexivity|].
  destruct (d >? 100) eqn:G; [lia|].
  rewrite Hp. unfold read_file_content. rewrite F.
  specialize (L (stack_room eval
                   (mkContext (d + 1) (default ∅ file_args) filename))
                (process_file_recursive fs eval fuel) fuel
                (mkContext (d + 1) (default ∅ file_args) filename)
                (open_ filename (push filename st))).
  destruct (expand_loop _ _ _ _ _ _ _) as [st2 o]; simpl in L; subst o.
  reflexivity.
Qed.

(** A directive without a handler is put back as it was, so the next
    pass finds it again. *)
Lemma unknown_directive_loops content m :
  parse_directive content = Some m ->
  directives !! directive_name m = None ->
  loops_forever eval content.
Proof.
  intros P U fuel recurse n context st.
  eapply expand_loop_stuck; [exact P| |now apply splice_full_match].
  intros st0. unfold dispatch. rewrite U. eauto.
Qed.
End Runs.

(** ** The claims *)

(** C3 (the code misses it).  A directive whose name has no handler: the
    engine prints the warning and substitutes the matched text unchanged,
    as the claim says, and the buffer is then what it was; but the loop
    scans it again from the start, finds the same directive, and so on:
    the expansion of a source whose first directive is unknown returns no
    buffer, whatever the fuel. *)
Theorem C3_unknown_directive_never_returns :
  forall fs eval filename content m,
    fs filename = FileContent content ->
    parse_directive content = Some m ->
    directives !! directive_name m = None ->
    (forall fuel recurse context st,
        dispatch eval fuel recurse m context st
        = (print (WarnUnknownDirective (directive_name m)) st,
           Ok (VStr (full_match m))))
    /\ splice content m (full_match m) = content
    /\ (forall fuel file_args d st text,
          snd (process_file_recursive fs eval fuel filename file_args d st)
          <> Ok text).
Proof.
  intros fs eval filename content m F P U. split; [|split].
  - intros. unfold dispatch. now rewrite U.
  - now apply splice_full_match.
  - eapply loops_forever_never_returns; [exact F|].
    eapply unknown_directive_loops; eassumption.
Qed.

Lemma C3_unknown_directive_never_returns_witness :
  let fs := files [("doc", "see [$unknown x] here")] in
  let m := mkDirectiveMatch "[$unknown x]" "unknown" ["x"] 4 16 in
  fs "doc" = FileContent "see [$unknown x] here"
  /\ parse_directive "see [$unknown x] here" = Some m
  /\ directives !! directive_name m = None
  /\ snd (process_file_recursive fs no_eval 50 "doc" None 0 initial)
     <> Ok "see [$unknown x] here".
Proof.
  intros fs m.
  assert (F : fs "doc" = FileContent "see [$unknown x] here")
    by (vm_compute; reflexivity).
  assert (P : parse_directive "see [$unknown x] here" = Some m)
    by (vm_compute; reflexivity).
  assert (U : directives !! directive_name m = None)
    by (vm_compute; reflexivity).
  repeat split; try assumption.
  exact (proj2 (proj2 (C3_unknown_directive_never_returns
                         fs no_eval "doc" _ m F P U))
           50%nat None 0 initial _).
Defined.

(** The placeholder of [_handle_generate_recursive] for too few arguments
    starts with a bracket and a dollar: it is a [generate_recursive]
    directive with one argument, which the handler answers with the same
    placeholder. *)
Lemma missing_arguments_loops (eval : evaluator) :
  loops_forever eval "[$generate_recursive a b]".
Proof.
  intros fuel recurse n context st.
  destruct n as [|n]; [reflexivity|].
  rewrite (expand_loop_step eval fuel recurse n _ context st
             (mkDirectiveMatch "[$generate_recursive a b]"
                "generate_recursive" ["a"; "b"] 0 25)
             st "[$generate_recursive missing_arguments]");
    [|vm_compute; reflexivity|vm_compute; reflexivity].
  apply (expand_loop_stuck eval fuel recurse
           "[$generate_recursive missing_arguments]" context
           (mkDirectiveMatch "[$generate_recursive missing_arguments]"
              "generate_recursive" ["missing_arguments"] 0 39)
           "[$generate_recursive missing_arguments]").
  - vm_compute; reflexivity.
  - intros st0. exists st0. vm_compute; reflexivity.
  - vm_compute; reflexivity.
Qed.

(** C1 (the code misses it).  Two of the failures the claim calls local
    are not.  [[$fileif f]]: [_handle_fileif] reads [args[1]] after testing
    only that [args] is not empty, the [IndexError] leaves
    [process_file_recursive] with the source still on [current_path], and
    [process_file] writes the input back unexpanded.
    [[$generate_recursive a b]]: the placeholder returned is itself a
    directive that expands to itself, and neither [process_file_recursive]
    nor [process_file] gives an answer, whatever the fuel. *)
Theorem C1_missing_arguments_not_local :
  forall eval fuel recurse filename a b context st,
    _handle_fileif eval recurse [filename] context st = (st, Raise IndexError)
    /\ _handle_generate_recursive fuel [a; b] context st
       = (st, Ok (VStr "[$generate_recursive missing_arguments]"))
    /\ process_file_recursive (files [("doc", "[$fileif f]")]) eval
         (2 + fuel) "doc" None 0 initial
       = (mkState ["doc"] [] ["doc"], Raise IndexError)
    /\ snd (process_file (files [("doc", "[$fileif f]")]) eval
              (2 + fuel) "doc" "out" None initial)
       = Ok "[$fileif f]"
    /\ snd (process_file_recursive
              (files [("doc", "[$generate_recursive a b]")]) eval
              fuel "doc" None 0 initial)
       = OutOfFuel
    /\ snd (process_file
              (files [("doc", "[$generate_recursive a b]")]) eval
              fuel "doc" "out" None initial)
       = OutOfFuel.
Proof.
  intros eval fuel recurse filename a b context st.
  assert (E : process_file_recursive (files [("doc", "[$fileif f]")]) eval
                (2 + fuel) "doc" None 0 initial
              = (mkState ["doc"] [] ["doc"], Raise IndexError)).
  { apply (enough_fuel _ _ 2); [vm_compute; reflexivity|discriminate|lia]. }
  assert (G : snd (process_file_recursive
                     (files [("doc", "[$generate_recursive a b]")]) eval
                     fuel "doc" None 0 initial)
              = OutOfFuel).
  { apply loops_forever_diverges
      with (content := "[$generate_recursive a b]");
      [reflexivity|apply missing_arguments_loops|lia|reflexivity]. }
  split; [reflexivity|]. split; [reflexivity|].
  split; [exact E|]. split; [|split; [exact G|]].
  - unfold process_file. rewrite E. reflexivity.
  - clear E. unfold process_file. revert G.
    destruct (process_file_recursive _ _ _ _ _ _ _) as [st' o].
    simpl. intros ->. reflexivity.
Qed.

(** C2 (the code misses it).  The loader answers a missing source with the
    text [[$file <name>]] (and prints that it keeps the original
    placeholder), but that text is a [file] directive naming the source
    being expanded: the loop expands it, the inclusion meets the cycle
    check, and the output holds [[# $file <name>: infinite loop]] where the
    claim says the placeholder stays. *)
Theorem C2_missing_source_placeholder_rewritten :
  forall eval fuel fs0 filename st,
    let fs := files [("doc", "see [$file missing.txt]")] in
    snd (read_file_content fs0 filename st)
    = match fs0 filename with
      | FileContent content => content
      | _ => "[$file " +:+ filename +:+ "]"
      end
    /\ read_file_content fs "missing.txt" initial
       = (mkState [] [WarnFileNotFound "missing.txt"] ["missing.txt"],
          "[$file missing.txt]")
    /\ process_file_recursive fs eval (3 + fuel) "missing.txt" None 0 initial
       = (mkState []
            [WarnFileNotFound "missing.txt";
             ErrProcessing "missing.txt"
               "Circular reference detected: missing.txt -> missing.txt"]
            ["missing.txt"],
          Ok "[# $file missing.txt: infinite loop]")
    /\ process_file_recursive fs eval (4 + fuel) "doc" None 0 initial
       = (mkState []
            [WarnFileNotFound "missing.txt";
             ErrProcessing "missing.txt"
               "Circular reference detected: doc -> missing.txt -> missing.txt"]
            ["doc"; "missing.txt"],
          Ok "see [# $file missing.txt: infinite loop]")
    /\ Str.contains "[$file missing.txt]"
         "see [# $file missing.txt: infinite loop]" = false.
Proof.
  intros eval fuel fs0 filename st fs.
  split; [|split; [reflexivity|split; [|split]]].
  - unfold read_file_content. now destruct (fs0 filename).
  - apply (enough_fuel _ _ 3); [vm_compute; reflexivity|discriminate|lia].
  - apply (enough_fuel _ _ 4); [vm_compute; reflexivity|discriminate|lia].
  - vm_compute; reflexivity.
Qed.

(** The loader never fails: what cannot be read is answered with the text
    of a [file] directive for it. *)
Lemma read_file_content_fallback (fs : filesystem) (filename : string)
    (st : state) :
  (forall content, fs filename <> FileContent content) ->
  snd (read_file_content fs filename st) = "[$file " +:+ filename +:+ "]".
Proof.
  intros H. unfold read_file_content.
  destruct (fs filename) as [content| |]; [|reflexivity|reflexivity].
  now destruct (H content).
Qed.

(** ** The depth ceiling *)

(** [process_file_recursive] raises [RecursionError] from its own test and
    from nowhere else. *)
Lemma depth_exceeded_iff (fs : filesystem) (eval : evaluator) (fuel : nat)
    (filename : string) (file_args : option scope) (d : Z) (st : state) :
  (exists msg,
      snd (process_file_recursive fs eval (S fuel) filename file_args d st)
      = Raise (RecursionError msg))
  <-> d > 100.
Proof.
  simpl. destruct (d >? 100) eqn:G.
  - split; [lia|]. intros _. eexists; reflexivity.
  - split; [|lia]. intros [msg H]. exfalso.
    destruct (on_path filename st); [discriminate|].
    destruct (read_file_content _ _ _) as [st1 content].
    destruct (expand_loop _ _ _ _ _ _ _) as [st2 [text|e|]] eqn:L;
      simpl in H; try discriminate.
    apply expand_loop_never_escapes in L. inversion H; subst e.
    discriminate.
Qed.

Lemma chain_101_expands (eval : evaluator) (fuel : nat) :
  process_file_recursive (chain 101) eval (103 + fuel) "f0" None 0 initial
  = (mkState []
       [ErrProcessing "f101" "Maximum recursion depth exceeded"]
       (map chain_name (seq 0 101)),
     Ok "[# $file f101: infinite loop]").
Proof.
  apply (enough_fuel _ _ 103); [vm_compute; reflexivity|discriminate|lia].
Qed.

(** C4, as stated, fails: the top-level expansion of a chain of 101
    sources does not fail with [RecursionError], with any fuel; it returns
    a buffer, whether the last source names a further one or not. *)
Lemma C4_chain_counterexample :
  ~ (exists fuel msg,
        snd (process_file_recursive (chain 101) no_eval fuel "f0" None 0
               initial)
        = Raise (RecursionError msg))
  /\ snd (process_file_recursive (chain 101) no_eval 103 "f0" None 0 initial)
     = Ok "[# $file f101: infinite loop]"
  /\ snd (process_file_recursive
            (fun name => if String.eqb name "f100" then FileContent "end"
                         else chain 100 name)
            no_eval 103 "f0" None 0 initial)
     = Ok "end".
Proof.
  split; [|split].
  - intros (fuel & msg & H). destruct fuel as [|fuel]; [discriminate|].
    assert (D : 0 > 100) by (apply (depth_exceeded_iff (chain 101) no_eval
                                      fuel "f0" None 0 initial); eauto).
    lia.
  - exact (f_equal snd (chain_101_expands no_eval 0)).
  - vm_compute; reflexivity.
Qed.

(** C4 (amended).  [process_file_recursive] fails with [RecursionError]
    exactly when its depth argument exceeds 100.  An inclusion at depth 101
    fails so inside the [file] handler, which answers with the placeholder:
    the top-level expansion of a chain of 101 sources returns the buffer
    with [[# $file f101: infinite loop]], having opened the 101 sources and
    not the 102nd. *)
Theorem C4_depth_ceiling :
  forall fs eval fuel filename file_args d st,
    ((exists msg,
         snd (process_file_recursive fs eval (S fuel) filename file_args d st)
         = Raise (RecursionError msg))
     <-> d > 100)
    /\ process_file_recursive (chain 101) eval (103 + fuel) "f0" None 0
         initial
       = (mkState []
            [ErrProcessing "f101" "Maximum recursion depth exceeded"]
            (map chain_name (seq 0 101)),
          Ok "[# $file f101: infinite loop]").
Proof.
  intros. split; [apply depth_exceeded_iff|apply chain_101_expands].
Qed.

(** ** The call stack *)

(** C5, as stated, fails: the [IndexError] of [[$fileif f]] leaves
    [process_file_recursive] with the source still on the stack. *)
Lemma C5_stack_counterexample :
  let r := process_file_recursive (files [("doc", "[$fileif f]")]) no_eval 2
             "doc" None 0 initial in
  snd r = Raise IndexError
  /\ current_path (fst r) = ["doc"]
  /\ current_path (fst r) <> current_path initial.
Proof. vm_compute. repeat split; discriminate. Qed.

(** C5 (amended).  A call of [process_file_recursive] that returns, or
    that fails with [RecursionError] or [CircularReferenceError], leaves
    [current_path] as it was before the call. *)
Theorem C5_stack_balanced :
  forall fs eval fuel filename file_args d st st' o,
    process_file_recursive fs eval fuel filename file_args d st = (st', o) ->
    settled o ->
    current_path st' = current_path st.
Proof.
  intros fs eval fuel filename file_args d st st' o H S.
  exact (process_file_recursive_balanced fs eval fuel _ _ _ _ _ _ H S).
Qed.

Lemma C5_stack_balanced_witness :
  let fs := files [("A", "[$file B]"); ("B", "[$file A]")] in
  let st' := mkState ["main"]
               [ErrProcessing "A"
                  "Circular reference detected: main -> A -> B -> A"]
               ["A"; "B"] in
  process_file_recursive fs no_eval 4 "A" None 1 (mkState ["main"] [] [])
  = (st', Ok "[# $file A: infinite loop]")
  /\ settled (Ok "[# $file A: infinite loop]")
  /\ current_path st' = current_path (mkState ["main"] [] []).
Proof.
  intros fs st'.
  assert (H : process_file_recursive fs no_eval 4 "A" None 1
                (mkState ["main"] [] [])
              = (st', Ok "[# $file A: infinite loop]"))
    by (vm_compute; reflexivity).
  split; [exact H|]. split; [exact I|].
  exact (C5_stack_balanced fs no_eval 4 "A" None 1 _ st' _ H I).
Defined.

(** ** Cycles *)

(** Entering a source that is already being expanded fails at once, and
    the message lists the whole stack followed by the source. *)
Lemma circular_reference_raised (fs : filesystem) (eval : evaluator)
    (fuel : nat) (filename : string) (file_args : option scope) (d : Z)
    (st : state) :
  d <= 100 -> on_path filename st = true ->
  process_file_recursive fs eval (S fuel) filename file_args d st
  = (st, Raise (CircularReferenceError
                  ("Circular reference detected: "
                   +:+ Str.join " -> " (current_path st ++ [filename])))).
Proof.
  intros Hd Hp. simpl. destruct (d >? 100) eqn:G; [lia|]. now rewrite Hp.
Qed.

(** The [file] handler stops both conditions: the directive becomes the
    placeholder and the message goes to the console. *)
Lemma file_handler_catches (eval : evaluator)
    (recurse : string -> option scope -> Z -> state -> state * outcome string)
    (filename : string) (context : Context) (st st' : state) (e : exn)
    (msg : string) :
  recurse filename None (depth context) st = (st', Raise e) ->
  e = CircularReferenceError msg \/ e = RecursionError msg ->
  _handle_file eval recurse [filename] context st
  = (print (ErrProcessing filename msg) st',
     Ok (VStr ("[# $file " +:+ filename +:+ ": infinite loop]"))).
Proof.
  intros H [-> | ->]; unfold _handle_file, include; simpl; now rewrite H.
Qed.

(** C6.  With A holding [[$file B]] and B holding [[$file A]], the
    expansion of A returns, for any fuel from 4 on, the buffer in which the
    inclusion is the placeholder [[# $file A: infinite loop]]; the console
    holds the message with the whole path, the stack is empty again.  With
    text and another directive around the inclusions, only the site of the
    inclusion of A is replaced by the placeholder and the rest is expanded
    as usual. *)
Theorem C6_cycle_placeholder :
  forall eval fuel,
    process_file_recursive
      (files [("A", "[$file B]"); ("B", "[$file A]")]) eval
      (4 + fuel) "A" None 0 initial
    = (mkState []
         [ErrProcessing "A" "Circular reference detected: A -> B -> A"]
         ["A"; "B"],
       Ok "[# $file A: infinite loop]")
    /\ process_file_recursive
         (files [("A", "one [$file B] two [$arg who] three");
                 ("B", "<[$file A]>")]) eval
         (4 + fuel) "A" (Some {[ "who" := VStr "you" ]}) 0 initial
       = (mkState []
            [ErrProcessing "A" "Circular reference detected: A -> B -> A"]
            ["A"; "B"],
          Ok "one <[# $file A: infinite loop]> two you three")
    /\ Str.contains "[# $file A: infinite loop]"
         "one <[# $file A: infinite loop]> two you three" = true.
Proof.
  intros eval fuel. split; [|split].
  - apply (enough_fuel _ _ 4); [vm_compute; reflexivity|discriminate|lia].
  - apply (enough_fuel _ _ 4); [vm_compute; reflexivity|discriminate|lia].
  - vm_compute; reflexivity.
Qed.

(** ** Scopes *)

(** The frame of a source is built from the dictionary given at the call
    and nothing else. *)
Lemma nested_frame_scope (fs : filesystem) (eval : evaluator) (fuel : nat)
    (filename content : string) (file_args : option scope) (d : Z)
    (st : state) :
  d <= 100 -> on_path filename st = false ->
  fs filename = FileContent content ->
  process_file_recursive fs eval (S fuel) filename file_args d st
  = match expand_loop eval
            (stack_room eval
               (mkContext (d + 1) (default ∅ file_args) filename))
            (process_file_recursive fs eval fuel) fuel
            content (mkContext (d + 1) (default ∅ file_args) filename)
            (open_ filename (push filename st)) with
    | (st2, Ok content') => (pop st2, Ok content')
    | (st2, Raise e) => (st2, Raise e)
    | (st2, OutOfFuel) => (st2, OutOfFuel)
    end.
Proof.
  intros Hd Hp F. simpl. destruct (d >? 100) eqn:G; [lia|].
  rewrite Hp. unfold read_file_content. now rewrite F.
Qed.






(** ** The gate of [fileif] *)

(** C8.  When the gate key is not bound in the scope of the current frame,
    or bound to a value that is false, [_handle_fileif] answers the empty
    string, whatever the recursive call would do: it is not called, nothing
    is opened and the stack is untouched.  [[$fileif other.txt flag]] with
    [flag] false, or with no [flag], expands to the empty string, and
    [other.txt], which exists, is not opened. *)
Theorem C8_fileif_gate :
  forall eval recurse filename check rest context st fuel,
    truthy (default (VBool false) (ctx_args context !! check)) = false ->
    let st' :=
      print (GateTrace check (ctx_args context)
               (default (VBool false) (ctx_args context !! check))) st in
    _handle_fileif eval recurse (filename :: check :: rest) context st
    = (st', Ok (VStr EmptyString))
    /\ opened st' = opened st
    /\ current_path st' = current_path st
    /\ process_file_recursive
         (files [("doc", "[$fileif other.txt flag]"); ("other.txt", "text")])
         eval (3 + fuel) "doc" (Some {[ "flag" := VBool false ]}) 0 initial
       = (mkState []
            [GateTrace "flag" {[ "flag" := VBool false ]} (VBool false)]
            ["doc"],
          Ok EmptyString)
    /\ process_file_recursive
         (files [("doc", "[$fileif other.txt flag]"); ("other.txt", "text")])
         eval (3 + fuel) "doc" None 0 initial
       = (mkState [] [GateTrace "flag" ∅ (VBool false)] ["doc"], Ok EmptyString).
Proof.
  intros eval recurse filename check rest context st fuel H st'.
  split; [|split; [reflexivity|split; [reflexivity|split]]].
  - unfold _handle_fileif. now rewrite H.
  - apply (enough_fuel _ _ 3); [vm_compute; reflexivity|discriminate|lia].
  - apply (enough_fuel _ _ 3); [vm_compute; reflexivity|discriminate|lia].
Qed.

Lemma C8_fileif_gate_witness :
  let context := mkContext 1 {[ "flag" := VStr EmptyString ]} "doc" in
  truthy (default (VBool false) (ctx_args context !! "flag")) = false
  /\ _handle_fileif no_eval
       (fun _ _ _ st => (st, Raise TypeError))
       ["other.txt"; "flag"] context initial
     = (mkState [] [GateTrace "flag" {[ "flag" := VStr EmptyString ]} (VStr EmptyString)] [],
        Ok (VStr EmptyString)).
Proof.
  intros context.
  assert (H : truthy (default (VBool false) (ctx_args context !! "flag"))
              = false) by (vm_compute; reflexivity).
  split; [exact H|].
  exact (proj1 (C8_fileif_gate no_eval (fun _ _ _ st => (st, Raise TypeError))
                  "other.txt" "flag" [] context initial 0 H)).
Defined.

(** ** Brace literals *)

Module SplitFacts.

Lemma append_assoc (a b c : string) : (a +:+ b) +:+ c = a +:+ (b +:+ c).
Proof.
  induction a as [|x a IH]; [reflexivity|].
  change (String x ((a +:+ b) +:+ c) = String x (a +:+ (b +:+ c))).
  now rewrite IH.
Qed.

Lemma append_empty_r (a : string) : a +:+ EmptyString = a.
Proof.
  induction a as [|x a IH]; [reflexivity|].
  change (String x (a +:+ EmptyString) = String x a). now rewrite IH.
Qed.

Lemma snoc_append (a : string) (c : ascii) (b : string) :
  Str.snoc a c +:+ b = a +:+ String c b.
Proof. unfold Str.snoc. now rewrite append_assoc. Qed.



End SplitFacts.

(** ** Arguments taken in one piece *)

Module ClassFacts.


Lemma space_no_brace (c : ascii) :
  Chars.isspace c = true -> not_brace c = true.
Proof.
  destruct c as [[] [] [] [] [] [] [] []]; vm_compute; intros H;
    first [reflexivity|discriminate H].
Qed.















(** A string that is not empty has a last character. *)
Lemma last_char (p : ascii -> bool) :
  forall t c, string_all p (String c t) = true ->
    exists a d, String c t = a +:+ String d EmptyString /\ p d = true.
Proof.
  induction t as [|c' t IH]; intros c H.
  - exists EmptyString, c. split; [reflexivity|].
    cbn [string_all] in H. now apply andb_prop in H.
  - cbn [string_all] in H. apply andb_prop in H as [_ H].
    destruct (IH c' H) as (a & d & E & P).
    exists (String c a), d. split; [|exact P].
    change (String c a +:+ String d EmptyString)
      with (String c (a +:+ String d EmptyString)).
    now rewrite <- E.
Qed.

End ClassFacts.

Module WholeFacts.
Import ClassFacts.

(** A run of characters that are neither spaces nor braces joins the
    argument being built. *)
Lemma split_loop_run (t : string) :
  string_all not_space t = true ->
  string_all not_brace t = true ->
  forall acc cur rest,
    split_loop (t +:+ rest) acc cur false
    = split_loop rest acc (cur +:+ t) false.
Proof.
  induction t as [|c t IH]; intros S B acc cur rest.
  - change (EmptyString +:+ rest) with rest.
    now rewrite SplitFacts.append_empty_r.
  - cbn [string_all] in S, B.
    apply andb_prop in S as [Sc St]. apply andb_prop in B as [Bc Bt].
    unfold not_brace in Bc. apply andb_prop in Bc as [Bo Bcl].
    apply negb_true_iff in Bo, Bcl. apply negb_true_iff in Sc.
    change (String c t +:+ rest) with (String c (t +:+ rest)).
    cbn [split_loop]. rewrite Bo, Bcl, Sc. cbn [andb].
    rewrite IH by assumption. now rewrite SplitFacts.snoc_append.
Qed.


Lemma plain_whole (c : ascii) (t : string) :
  string_all not_space (String c t) = true ->
  string_all not_brace (String c t) = true ->
  whole (String c t).
Proof.
  intros S B. split; [|split].
  - exists c, t. split; [reflexivity|].
    cbn [string_all] in S. apply andb_prop in S as [Sc _].
    now apply negb_true_iff in Sc.
  - destruct (last_char not_space t c S) as (a & d & E & P).
    exists a, d. split; [exact E|]. now apply negb_true_iff in P.
  - now apply split_loop_run.
Qed.



(** Spaces outside braces, when no argument is being built, are passed. *)
Lemma split_loop_spaces (sep : string) :
  string_all Chars.isspace sep = true ->
  forall acc rest,
    split_loop (sep +:+ rest) acc EmptyString false
    = split_loop rest acc EmptyString false.
Proof.
  induction sep as [|c sep IH]; intros S acc rest; [reflexivity|].
  cbn [string_all] in S. apply andb_prop in S as [Sc Ss].
  pose proof (space_no_brace c Sc) as B. unfold not_brace in B.
  apply andb_prop in B as [Bo Bcl]. apply negb_true_iff in Bo, Bcl.
  change (String c sep +:+ rest) with (String c (sep +:+ rest)).
  cbn [split_loop]. rewrite Bo, Bcl, Sc. cbn [andb negb Str.is_empty].
  now apply IH.
Qed.

(** Spaces outside braces end the argument being built. *)
Lemma split_loop_cut (sep : string) :
  sep <> EmptyString ->
  string_all Chars.isspace sep = true ->
  forall acc cur rest,
    cur <> EmptyString ->
    split_loop (sep +:+ rest) acc cur false
    = split_loop rest (acc ++ [cur]) EmptyString false.
Proof.
  intros N S acc cur rest C.
  destruct sep as [|c sep]; [contradiction|].
  cbn [string_all] in S. apply andb_prop in S as [Sc Ss].
  pose proof (space_no_brace c Sc) as B. unfold not_brace in B.
  apply andb_prop in B as [Bo Bcl]. apply negb_true_iff in Bo, Bcl.
  change (String c sep +:+ rest) with (String c (sep +:+ rest)).
  cbn [split_loop]. rewrite Bo, Bcl, Sc. cbn [andb negb].
  destruct cur as [|d cur]; [contradiction|]. cbn [Str.is_empty negb].
  now apply split_loop_spaces.
Qed.

Lemma whole_not_empty (t : string) : whole t -> t <> EmptyString.
Proof. intros ((c & t' & -> & _) & _). discriminate. Qed.

Lemma separator_spaces (sep : string) :
  separator sep = true ->
  sep <> EmptyString /\ string_all Chars.isspace sep = true.
Proof.
  unfold separator. intros H. apply andb_prop in H as [N S].
  split; [|exact S]. now destruct sep.
Qed.


(** The loop over arguments written one after the other stores all but
    the last and is building the last when it ends. *)
Lemma split_loop_written :
  forall more t acc,
    whole t ->
    Forall (fun st => separator st.1 = true /\ whole st.2) more ->
    exists front back,
      t :: map snd more = front ++ [back]
      /\ back <> EmptyString
      /\ split_loop (written t more) acc EmptyString false
         = (acc ++ front, back, false).
Proof.
  induction more as [|[sep t'] more IH]; intros t acc W F.
  - exists [], t. split; [reflexivity|]. split; [now apply whole_not_empty|].
    destruct W as (_ & _ & W).
    cbn [written]. rewrite <- (SplitFacts.append_empty_r t) at 1.
    rewrite W. cbn [split_loop]. now rewrite app_nil_r.
  - apply Forall_cons_1 in F as [[S W'] F]. cbn [fst snd] in S, W'.
    destruct (separator_spaces sep S) as [N A].
    destruct (IH t' (acc ++ [t]) W' F) as (front & back & E & B & L).
    exists (t :: front), back.
    split; [cbn [map snd]; now rewrite E|]. split; [exact B|].
    change (written t ((sep, t') :: more))
      with (t +:+ sep +:+ written t' more).
    pose proof (whole_not_empty t W) as Nt.
    destruct W as (_ & _ & W). rewrite W.
    change (EmptyString +:+ t) with t.
    rewrite (split_loop_cut sep N A); [|exact Nt].
    rewrite L. now rewrite <- app_assoc.
Qed.

(** Arguments written one after the other are what the loop gives
    back. *)
Lemma split_args_written (t : string) (more : list (string * string)) :
  whole t ->
  Forall (fun st => separator st.1 = true /\ whole st.2) more ->
  split_args (written t more) = t :: map snd more.
Proof.
  intros W F.
  destruct (split_loop_written more t [] W F) as (front & back & E & B & L).
  unfold split_args.
  assert (J : Str.is_empty (written t more) = false).
  { destruct W as ((c & t' & -> & _) & _). now destruct more as [|[sep t2] more]. }
  rewrite J, L.
  destruct back as [|d back]; [contradiction|].
  cbn [Str.is_empty negb]. now rewrite E.
Qed.






Lemma word_whole (t : string) : word t = true -> whole t.
Proof.
  unfold word. intros H. apply andb_prop in H as [H B].
  apply andb_prop in H as [N S].
  destruct t as [|c t]; [discriminate N|]. now apply plain_whole.
Qed.

End WholeFacts.

Module PatternFacts.
Import Re ClassFacts.

Section Paths.
Context {R : Type}.











(** What the repetition of the pattern is made of: spaces, then a brace
    literal or a plain run. *)
Local Abbreviation literal :=
  (Cat (Lit "{") (Cat (LazyStar (Class not_newline)) (Lit "}"))).
Local Abbreviation argument := (Alt literal (Plus (Class bare_char))).
Local Abbreviation item := (Cat (Plus (Class Chars.isspace)) argument).









End Paths.






End PatternFacts.

(** ** Brace literals *)




(** ** The generated pattern *)


(** With a negative level the recursion of [build_pattern] never meets its
    base case. *)
Lemma build_pattern_negative (prefix op : string) :
  forall frames n, n < 0 -> build_pattern frames prefix op n = None.
Proof.
  induction frames as [|frames IH]; intros n Hn; [reflexivity|].
  cbn [build_pattern].
  destruct (n =? 0) eqn:Q; [apply Z.eqb_eq in Q; lia|].
  rewrite IH by lia. reflexivity.
Qed.







(** * Further properties of the engine *)

(** ** Where a directive can be *)

Module ParseFacts.
Import Re.

Lemma drop_cons (n : nat) (s : string) (c : ascii) (s' : string) :
  Str.drop n s = String c s' -> Str.drop (S n) s = s'.
Proof.
  revert s; induction n as [|n IH]; intros s H.
  - simpl in H. subst s. reflexivity.
  - destruct s as [|d s]; [discriminate|]. simpl in *. now apply IH.
Qed.

(** The pattern matches only at a bracket followed by a dollar. *)
Lemma pattern_needs_marker {R : Type} (s : string) (caps : captures)
    (k : @cont R) :
  Str.is_prefix "[$" s = false -> bt pattern s caps k = None.
Proof.
  intros H. unfold pattern. cbn [bt].
  destruct s as [|c s]; [reflexivity|].
  cbn [Str.is_prefix] in H.
  destruct (Chars.eqc "[" c); [|reflexivity].
  destruct s as [|d s]; [reflexivity|].
  cbn [Str.is_prefix andb] in H. rewrite andb_true_r in H.
  now rewrite H.
Qed.

Lemma search_from_none (subject : string) :
  forall s pos,
    Str.contains "[$" s = false ->
    search_from pattern subject pos s = None.
Proof.
  induction s as [|c s IH]; intros pos H.
  - cbn [search_from]. rewrite pattern_needs_marker; reflexivity.
  - cbn [Str.contains] in H. apply orb_false_elim in H as [H1 H2].
    cbn [search_from]. rewrite pattern_needs_marker by exact H1.
    now apply IH.
Qed.

Lemma search_from_start (subject : string) :
  forall s pos m,
    search_from pattern subject pos s = Some m ->
    s = Str.drop pos subject ->
    Str.is_prefix "[$" (Str.drop (m_start m) subject) = true.
Proof.
  induction s as [|c s IH]; intros pos m H D; cbn [search_from] in H.
  - rewrite pattern_needs_marker in H by reflexivity. discriminate.
  - destruct (Str.is_prefix "[$" (String c s)) eqn:P.
    + destruct (bt pattern (String c s) [] _) as [[s' caps]|].
      * inversion H; subst m. cbn [m_start]. now rewrite <- D.
      * apply IH in H; [assumption|].
        symmetry. now apply drop_cons with (c := c).
    + rewrite pattern_needs_marker in H by exact P.
      apply IH in H; [assumption|].
      symmetry. now apply drop_cons with (c := c).
Qed.

End ParseFacts.

(** X1.  What [parse_directive] finds lies inside the buffer: the span is
    well formed, [full_match] is the text of the span, and the span starts
    at a bracket followed by a dollar. *)
Theorem X1_match_span :
  forall content m,
    parse_directive content = Some m ->
    (start m <= end_ m <= String.length content)%nat
    /\ full_match m = Str.take (end_ m - start m) (Str.drop (start m) content)
    /\ Str.is_prefix "[$" (Str.drop (start m) content) = true.
Proof.
  intros content m H.
  destruct (parse_directive_span content m H) as [B F].
  split; [exact B|]. split; [exact F|].
  unfold parse_directive, Re.search in H.
  destruct (Re.search_from _ _ _ _) as [mo|] eqn:E; [|discriminate].
  inversion H; subst m. cbn [start].
  now apply (ParseFacts.search_from_start content content 0%nat mo E).
Qed.

Lemma X1_match_span_witness :
  let m := mkDirectiveMatch "[$arg who]" "arg" ["who"] 6 16 in
  parse_directive "hello [$arg who]!" = Some m
  /\ (start m <= end_ m <= String.length "hello [$arg who]!")%nat.
Proof.
  intros m.
  assert (P : parse_directive "hello [$arg who]!" = Some m)
    by (vm_compute; reflexivity).
  split; [exact P|].
  exact (proj1 (X1_match_span "hello [$arg who]!" m P)).
Defined.

(** X2.  A buffer in which no bracket is followed by a dollar holds no
    directive. *)
Theorem X2_no_marker_no_directive :
  forall content,
    Str.contains "[$" content = false ->
    parse_directive content = None.
Proof.
  intros content H. unfold parse_directive, Re.search.
  now rewrite ParseFacts.search_from_none.
Qed.

Lemma X2_no_marker_no_directive_witness :
  Str.contains "[$" "[# $file A: infinite loop] and a[1] $x" = false
  /\ parse_directive "[# $file A: infinite loop] and a[1] $x" = None.
Proof.
  assert (H : Str.contains "[$" "[# $file A: infinite loop] and a[1] $x"
              = false) by (vm_compute; reflexivity).
  split; [exact H|].
  exact (X2_no_marker_no_directive _ H).
Defined.

(** ** The arguments of a directive *)

Module TokenFacts.

(** No argument the loop stores is empty. *)
Lemma split_loop_nonempty (s : string) :
  forall acc cur ib,
    Forall (fun t => Str.is_empty t = false) acc ->
    Forall (fun t => Str.is_empty t = false) (split_loop s acc cur ib).1.1.
Proof.
  induction s as [|c s IH]; intros acc cur ib H; cbn [split_loop].
  - exact H.
  - destruct (Chars.eqc "{" c); [now apply IH|].
    destruct (Chars.eqc "}" c); [now apply IH|].
    destruct (Chars.isspace c && negb ib); [|now apply IH].
    destruct (Str.is_empty cur) eqn:E; cbn [negb]; apply IH; [exact H|].
    apply Forall_app. split; [exact H|]. now apply Forall_singleton.
Qed.

End TokenFacts.

(** X3.  No argument of a directive is empty: a run of spaces between two
    arguments, however long, gives no argument of its own. *)
Theorem X3_arguments_not_empty :
  forall content m,
    parse_directive content = Some m ->
    Forall (fun t => Str.is_empty t = false) (args m).
Proof.
  intros content m H. unfold parse_directive in H.
  destruct (Re.search _ _) as [mo|]; [|discriminate].
  inversion H; subst m. cbn [args]. unfold split_args.
  destruct (Str.is_empty (Str.strip _)); [constructor|].
  pose proof (TokenFacts.split_loop_nonempty (Str.strip (Re.group mo 2))
                [] EmptyString false (List.Forall_nil _)) as N.
  destruct (split_loop _ _ _ _) as [[acc cur] ib]. cbn in N.
  destruct (Str.is_empty cur) eqn:E; cbn [negb]; [exact N|].
  apply Forall_app. split; [exact N|]. now apply Forall_singleton.
Qed.

Lemma X3_arguments_not_empty_witness :
  let m := mkDirectiveMatch "[$x   a    b]" "x" ["a"; "b"] 0 13 in
  parse_directive "[$x   a    b]" = Some m
  /\ Forall (fun t => Str.is_empty t = false) (args m).
Proof.
  intros m.
  assert (P : parse_directive "[$x   a    b]" = Some m)
    by (vm_compute; reflexivity).
  split; [exact P|].
  exact (X3_arguments_not_empty _ _ P).
Defined.

(** X4.  Arguments that hold neither space nor brace, written one after
    the other with spaces between them, are given back one by one: the
    text is cut at every run of spaces, however long and of whatever
    spaces, and nowhere else. *)
Theorem X4_plain_arguments :
  forall t more,
    word t = true ->
    Forall (fun st => separator st.1 = true /\ word st.2 = true) more ->
    split_args (written t more) = t :: map snd more.
Proof.
  intros t more W F.
  apply WholeFacts.split_args_written; [now apply WholeFacts.word_whole|].
  eapply Forall_impl; [exact F|].
  intros st [S Wd]. split; [exact S|now apply WholeFacts.word_whole].
Qed.

Lemma X4_plain_arguments_witness :
  let more := [("  ", "math"); (" ", "v]"); (String "009" "  ", "+")] in
  word "lvl" = true
  /\ Forall (fun st => separator st.1 = true /\ word st.2 = true) more
  /\ split_args ("lvl  math v]" +:+ String "009" "  +")
     = ["lvl"; "math"; "v]"; "+"].
Proof.
  intros more.
  assert (W : word "lvl" = true) by reflexivity.
  assert (F : Forall (fun st => separator st.1 = true /\ word st.2 = true)
                more).
  { repeat (apply List.Forall_cons; [split; reflexivity|]).
    apply List.Forall_nil. }
  split; [exact W|]. split; [exact F|].
  exact (X4_plain_arguments "lvl" more W F).
Defined.

(** ** What an expansion returns *)

Section Returns.
Variable fs : filesystem.
Variable eval : evaluator.

Lemma expand_loop_fixed fuel recurse n :
  forall content context st st' text,
    expand_loop eval fuel recurse n content context st = (st', Ok text) ->
    parse_directive text = None.
Proof.
  induction n as [|n IH]; intros content context st st' text; cbn [expand_loop].
  - discriminate.
  - destruct (parse_directive content) as [m|] eqn:P.
    + destruct (dispatch _ _ _ _ _ _) as [st1 [[r|z|b| |t i]|e|]];
        try discriminate.
      apply IH.
    + intros H; inversion H; subst. exact P.
Qed.

Lemma process_file_recursive_fixed fuel filename file_args d st st' text :
  process_file_recursive fs eval fuel filename file_args d st = (st', Ok text) ->
  parse_directive text = None.
Proof.
  destruct fuel as [|fuel]; cbn [process_file_recursive]; [discriminate|].
  destruct (d >? 100); [discriminate|].
  destruct (on_path filename st); [discriminate|].
  destruct (read_file_content _ _ _) as [st1 content].
  destruct (expand_loop _ _ _ _ _ _ _) as [st2 [t|e|]] eqn:L;
    try discriminate.
  intros H; inversion H; subst. eapply expand_loop_fixed; eassumption.
Qed.

(** A source without a directive is returned as it is, after one look. *)
Lemma plain_source_returned fuel filename content file_args d st :
  fs filename = FileContent content ->
  parse_directive content = None ->
  d <= 100 -> on_path filename st = false ->
  process_file_recursive fs eval (2 + fuel) filename file_args d st
  = (mkState (current_path st) (console st) (opened st ++ [filename]),
     Ok content).
Proof.
  intros F P Hd Hp.
  change (2 + fuel)%nat with (S (S fuel)).
  rewrite (nested_frame_scope fs eval (S fuel) filename content)
    by assumption.
  cbn [expand_loop]. rewrite P.
  unfold pop, open_, push. cbn. now rewrite removelast_last.
Qed.
End Returns.

(** X5.  The buffer an expansion returns holds no directive: whenever
    [process_file_recursive] returns, no text of the shape of a directive
    is left in what it returns, known or unknown. *)
Theorem X5_result_has_no_directive :
  forall fs eval fuel filename file_args d st st' text,
    process_file_recursive fs eval fuel filename file_args d st
    = (st', Ok text) ->
    parse_directive text = None.
Proof.
  intros fs eval fuel filename file_args d st st' text H.
  exact (process_file_recursive_fixed fs eval fuel _ _ _ _ _ _ H).
Qed.

Lemma X5_result_has_no_directive_witness :
  let fs := files [("A", "one [$file B] two"); ("B", "<[$file A]>")] in
  process_file_recursive fs no_eval 4 "A" None 0 initial
  = (mkState []
       [ErrProcessing "A" "Circular reference detected: A -> B -> A"]
       ["A"; "B"],
     Ok "one <[# $file A: infinite loop]> two")
  /\ parse_directive "one <[# $file A: infinite loop]> two" = None.
Proof.
  intros fs.
  assert (H : process_file_recursive fs no_eval 4 "A" None 0 initial
              = (mkState []
                   [ErrProcessing "A"
                      "Circular reference detected: A -> B -> A"]
                   ["A"; "B"],
                 Ok "one <[# $file A: infinite loop]> two"))
    by (vm_compute; reflexivity).
  split; [exact H|].
  exact (X5_result_has_no_directive fs no_eval 4 "A" None 0 initial _ _ H).
Defined.

(** X6.  A source that holds no directive is returned unchanged: the file
    is opened once, nothing is printed, and the stack is as before. *)
Theorem X6_plain_source_unchanged :
  forall fs eval fuel filename content file_args d st,
    fs filename = FileContent content ->
    parse_directive content = None ->
    d <= 100 -> on_path filename st = false ->
    process_file_recursive fs eval (2 + fuel) filename file_args d st
    = (mkState (current_path st) (console st) (opened st ++ [filename]),
       Ok content).
Proof.
  intros. now apply plain_source_returned.
Qed.

Lemma X6_plain_source_unchanged_witness :
  let fs := files [("notes", "a[1] costs $5 [# not a directive]")] in
  fs "notes" = FileContent "a[1] costs $5 [# not a directive]"
  /\ parse_directive "a[1] costs $5 [# not a directive]" = None
  /\ 0 <= 100 /\ on_path "notes" initial = false
  /\ process_file_recursive fs no_eval 2 "notes" None 0 initial
     = (mkState [] [] ["notes"], Ok "a[1] costs $5 [# not a directive]").
Proof.
  intros fs.
  assert (F : fs "notes" = FileContent "a[1] costs $5 [# not a directive]")
    by reflexivity.
  assert (P : parse_directive "a[1] costs $5 [# not a directive]" = None)
    by (vm_compute; reflexivity).
  assert (D : 0 <= 100) by lia.
  assert (O : on_path "notes" initial = false) by reflexivity.
  split; [exact F|]. split; [exact P|]. split; [exact D|]. split; [exact O|].
  exact (X6_plain_source_unchanged fs no_eval 0 "notes" _ None 0 initial
           F P D O).
Defined.

(** X7.  Expansion is idempotent: the text one expansion returned, stored
    as a source and expanded in any world, at any depth up to 100, comes
    back as it is. *)
Theorem X7_expansion_idempotent :
  forall fs eval fuel filename file_args d st st' text
         fs' eval' fuel' filename' file_args' d' st0,
    process_file_recursive fs eval fuel filename file_args d st
    = (st', Ok text) ->
    fs' filename' = FileContent text ->
    d' <= 100 -> on_path filename' st0 = false ->
    snd (process_file_recursive fs' eval' (2 + fuel') filename' file_args'
           d' st0)
    = Ok text.
Proof.
  intros fs eval fuel filename file_args d st st' text
         fs' eval' fuel' filename' file_args' d' st0 H F Hd Hp.
  apply process_file_recursive_fixed in H.
  now rewrite (plain_source_returned fs' eval' fuel' filename' text).
Qed.

Lemma X7_expansion_idempotent_witness :
  let fs := files [("doc", "Hi [$arg who]")] in
  let fs' := files [("out", "Hi you")] in
  process_file_recursive fs no_eval 3 "doc" (Some {[ "who" := VStr "you" ]})
    0 initial
  = (mkState [] [] ["doc"], Ok "Hi you")
  /\ snd (process_file_recursive fs' no_eval 2 "out" None 0 initial)
     = Ok "Hi you".
Proof.
  intros fs fs'.
  assert (H : process_file_recursive fs no_eval 3 "doc"
                (Some {[ "who" := VStr "you" ]}) 0 initial
              = (mkState [] [] ["doc"], Ok "Hi you"))
    by (vm_compute; reflexivity).
  split; [exact H|].
  refine (X7_expansion_idempotent fs no_eval 3 "doc" _ 0 initial _ "Hi you"
            fs' no_eval 0 "out" None 0 initial H _ _ _);
    [reflexivity|lia|reflexivity].
Defined.

(** ** What can go wrong *)

Section Failures.
Variable fs : filesystem.
Variable eval : evaluator.

Section FailStep.
Variable fuel : nat.
Variable recurse :
  string -> option scope -> Z -> state -> state * outcome string.
Hypothesis recurse_raises :
  forall filename file_args d st st' e,
    recurse filename file_args d st = (st', Raise e) ->
    uncaught e \/ caught e = true.

Lemma include_raises filename file_args context placeholder st st' e :
  include recurse filename file_args context placeholder st = (st', Raise e) ->
  uncaught e.
Proof.
  unfold include.
  destruct (recurse _ _ _ _) as [st1 [text|e1|]] eqn:E; try discriminate.
  apply recurse_raises in E.
  destruct e1; intros H; inversion H; subst;
    destruct E as [U|C]; try discriminate C; exact U.
Qed.

Lemma call_raises h args0 context st st' e :
  call eval fuel recurse h args0 context st = (st', Raise e) -> uncaught e.
Proof.
  destruct h; cbn [call].
  - unfold _handle_file. destruct args0 as [|filename rest]; [discriminate|].
    destruct (parse_file_args _ _ _ _) as [st1 [fa|e1|]] eqn:P.
    + apply include_raises.
    + intros H; inversion H; subst.
      apply parse_file_args_raises in P. now right; right.
    + discriminate.
  - unfold _handle_fileif.
    destruct args0 as [|filename [|check rest]]; [discriminate| |].
    + intros H; inversion H. now left.
    + destruct (negb _); [discriminate|].
      destruct (parse_file_args _ _ _ _) as [st1 [fa|e1|]] eqn:P.
      * apply include_raises.
      * intros H; inversion H; subst.
        apply parse_file_args_raises in P. now right; right.
      * discriminate.
  - unfold _handle_arg. destruct args0; discriminate.
  - unfold _handle_python_eval. destruct args0; [discriminate|].
    destruct (run_eval eval _ _); try discriminate.
    intros H; inversion H. now right; right.
  - unfold _handle_generate_recursive, generate_recursive_try.
    destruct (_ <? _)%nat; [discriminate|].
    destruct (args0 !! 0%nat) as [a0|]; cbn; [|discriminate].
    destruct (py_int _) as [level|]; cbn; [|discriminate].
    destruct (args0 !! 1%nat) as [pt|]; cbn; [|discriminate].
    destruct (args0 !! 2%nat) as [vn|]; cbn; [|discriminate].
    destruct (args0 !! 3%nat) as [op|]; cbn; [|discriminate].
    destruct (String.eqb _ _); [|discriminate].
    destruct (_generate_repeated_math_pattern _ _ _ _); discriminate.
Qed.

Lemma expand_loop_raises n :
  forall content context st st' e,
    expand_loop eval fuel recurse n content context st = (st', Raise e) ->
    uncaught e.
Proof.
  induction n as [|n IH]; intros content context st st' e; cbn [expand_loop].
  - discriminate.
  - destruct (parse_directive content) as [m|]; [|discriminate].
    destruct (dispatch _ _ _ _ _ _) as [st1 [[r|z|b| |t i]|e1|]] eqn:D;
      try discriminate;
      try (intros H; inversion H; now right; left).
    + apply IH.
    + intros H; inversion H; subst.
      unfold dispatch in D. destruct (directives !! _); [|discriminate].
      eapply call_raises; eassumption.
Qed.
End FailStep.

(** An exception that leaves [process_file_recursive] is one of its own
    two, raised by the tests at its entry, or an [IndexError], a
    [TypeError] or what is no [Exception] from below. *)
Lemma process_file_recursive_raises fuel :
  forall filename file_args d st st' e,
    process_file_recursive fs eval fuel filename file_args d st
    = (st', Raise e) ->
    uncaught e
    \/ (d > 100 /\ st' = st /\ e = RecursionError depth_message)
    \/ (d <= 100 /\ on_path filename st = true /\ st' = st
        /\ e = CircularReferenceError (circular_message st filename)).
Proof.
  induction fuel as [|fuel IH]; intros filename file_args d st st' e;
    cbn [process_file_recursive]; [discriminate|].
  destruct (d >? 100) eqn:G.
  - intros H; inversion H; subst. right; left. repeat split. lia.
  - destruct (on_path filename st) eqn:O.
    + intros H; inversion H; subst. right; right. repeat split. lia.
    + destruct (read_file_content _ _ _) as [st1 content].
      destruct (expand_loop _ _ _ _ _ _ _) as [st2 [t|e1|]] eqn:L;
        try discriminate.
      intros H; inversion H; subst. left.
      eapply expand_loop_raises; [|exact L].
      intros f fa d0 s0 s1 e0 R. apply IH in R as [U|[(_ & _ & ->)|(_ & _ & _ & ->)]];
        [now left|now right|now right].
Qed.
End Failures.

(** X8.  [process_file_recursive] fails with [CircularReferenceError]
    exactly when the source is on the stack at the call (and the depth is
    not above 100, which is tested first); the state is then untouched,
    nothing is opened, and the message lists the stack followed by the
    source. *)
Theorem X8_circular_reference_iff :
  forall fs eval fuel filename file_args d st,
    ((exists msg,
         snd (process_file_recursive fs eval (S fuel) filename file_args d st)
         = Raise (CircularReferenceError msg))
     <-> (d <= 100 /\ on_path filename st = true))
    /\ (d <= 100 -> on_path filename st = true ->
        process_file_recursive fs eval (S fuel) filename file_args d st
        = (st, Raise (CircularReferenceError
                        ("Circular reference detected: "
                         +:+ Str.join " -> "
                               (current_path st ++ [filename]))))).
Proof.
  intros fs eval fuel filename file_args d st. split.
  - split.
    + intros [msg H].
      destruct (process_file_recursive _ _ _ _ _ _ _) as [st' o] eqn:E.
      cbn in H. subst o.
      apply process_file_recursive_raises in E
        as [[U|[U|U]]|[(_ & _ & U)|(Hd & Ho & _)]]; try discriminate U.
      now split.
    + intros [Hd Ho]. eexists.
      now rewrite (circular_reference_raised fs eval fuel filename
                     file_args d st Hd Ho).
  - apply circular_reference_raised.
Qed.

(** X9.  Whatever the sources hold, an exception that leaves
    [process_file_recursive] is a [RecursionError] of its own depth test, a
    [CircularReferenceError] of its own cycle test, an [IndexError], a
    [TypeError], or what an evaluated expression raises that is no
    [Exception] ([SystemExit], [KeyboardInterrupt]), which no handler
    keeps; in the first two cases the state is as it was. *)
Theorem X9_exceptions_that_escape :
  forall fs eval fuel filename file_args d st st' e,
    process_file_recursive fs eval fuel filename file_args d st
    = (st', Raise e) ->
    e = IndexError \/ e = TypeError \/ e = BaseException
    \/ (d > 100 /\ st' = st /\ e = RecursionError depth_message)
    \/ (d <= 100 /\ on_path filename st = true /\ st' = st
        /\ e = CircularReferenceError (circular_message st filename)).
Proof.
  intros fs eval fuel filename file_args d st st' e H.
  apply process_file_recursive_raises in H as [[U|[U|U]]|[R|C]]; auto.
Qed.

Lemma X9_exceptions_that_escape_witness :
  let fs := files [("doc", "[$file part]");
                   ("part", "[$python_eval exit()]")] in
  process_file_recursive fs exits_eval 3 "doc" None 0 initial
  = (mkState ["doc"; "part"] [] ["doc"; "part"], Raise BaseException)
  /\ (BaseException = IndexError \/ BaseException = TypeError
      \/ BaseException = BaseException
      \/ (0 > 100 /\ mkState ["doc"; "part"] [] ["doc"; "part"] = initial
          /\ BaseException = RecursionError depth_message)
      \/ (0 <= 100 /\ on_path "doc" initial = true
          /\ mkState ["doc"; "part"] [] ["doc"; "part"] = initial
          /\ BaseException
             = CircularReferenceError (circular_message initial "doc"))).
Proof.
  intros fs.
  assert (H : process_file_recursive fs exits_eval 3 "doc" None 0 initial
              = (mkState ["doc"; "part"] [] ["doc"; "part"],
                 Raise BaseException)) by (vm_compute; reflexivity).
  split; [exact H|].
  exact (X9_exceptions_that_escape fs exits_eval 3 "doc" None 0 initial
           _ _ H).
Defined.

(** ** Scopes of strings *)

Section StringScopes.
Variable fs : filesystem.
Variable eval : evaluator.
Hypothesis eval_strings : str_eval eval.

Lemma str_scope_default (file_args : option scope) :
  (forall sc, file_args = Some sc -> str_scope sc) ->
  str_scope (default ∅ file_args).
Proof.
  intros H. destruct file_args as [sc|]; cbn.
  - now apply H.
  - intros k v L. now rewrite lookup_empty in L.
Qed.

Lemma parse_file_args_strings fr filename literal st :
  forall sc, parse_file_args eval fr filename literal = (st, Ok (Some sc)) ->
             str_scope sc.
Proof.
  unfold parse_file_args. intros sc.
  destruct literal as [src|]; [|discriminate].
  destruct (run_eval eval fr src) as [| |[d|] text] eqn:E; cbn;
    try discriminate.
  intros H; inversion H; subst. eapply eval_strings; eassumption.
Qed.

Section StringStep.
Variable fuel : nat.
Variable recurse :
  string -> option scope -> Z -> state -> state * outcome string.
Hypothesis recurse_strings :
  forall filename file_args d st,
    (forall sc, file_args = Some sc -> str_scope sc) ->
    snd (recurse filename file_args d st) <> Raise TypeError.

Lemma include_strings filename file_args context placeholder st :
  (forall sc, file_args = Some sc -> str_scope sc) ->
  answers_string
    (include recurse filename file_args context placeholder st).2.
Proof.
  intros S. unfold include.
  pose proof (recurse_strings filename file_args (depth context) st S) as R.
  destruct (recurse _ _ _ _) as [st1 [text|e|]]; cbn in *.
  - eauto.
  - destruct e; cbn; eauto; congruence.
  - exact I.
Qed.

Lemma call_strings h args0 context st :
  str_scope (ctx_args context) ->
  answers_string (call eval fuel recurse h args0 context st).2.
Proof.
  intros S. destruct h; cbn [call].
  - unfold _handle_file. destruct args0 as [|filename rest]; [cbn; eauto|].
    destruct (parse_file_args _ _ _ _) as [st1 [fa|e|]] eqn:P.
    + apply include_strings. intros sc ->.
      eapply parse_file_args_strings; exact P.
    + apply parse_file_args_raises in P. now subst.
    + exact I.
  - unfold _handle_fileif.
    destruct args0 as [|filename [|check rest]]; [cbn; eauto|cbn; congruence|].
    destruct (negb _); [cbn; eauto|].
    destruct (parse_file_args _ _ _ _) as [st1 [fa|e|]] eqn:P.
    + apply include_strings. intros sc ->.
      eapply parse_file_args_strings; exact P.
    + apply parse_file_args_raises in P. now subst.
    + exact I.
  - unfold _handle_arg. destruct args0 as [|name rest]; [cbn; eauto|].
    cbn. destruct (ctx_args context !! name) as [v|] eqn:L; cbn; eauto.
  - unfold _handle_python_eval. destruct args0; [cbn; eauto|].
    destruct (run_eval eval _ _); cbn; eauto; discriminate.
  - unfold _handle_generate_recursive, generate_recursive_try.
    destruct (_ <? _)%nat; [cbn; eauto|].
    destruct (args0 !! 0%nat) as [a0|]; cbn; [|eauto].
    destruct (py_int _) as [level|]; cbn; [|eauto].
    destruct (args0 !! 1%nat) as [pt|]; cbn; [|eauto].
    destruct (args0 !! 2%nat) as [vn|]; cbn; [|eauto].
    destruct (args0 !! 3%nat) as [op|]; cbn; [|eauto].
    destruct (String.eqb _ _); [|cbn; eauto].
    destruct (_generate_repeated_math_pattern _ _ _ _); cbn; eauto.
Qed.

Lemma expand_loop_strings n :
  forall content context st,
    str_scope (ctx_args context) ->
    (expand_loop eval fuel recurse n content context st).2 <> Raise TypeError.
Proof.
  induction n as [|n IH]; intros content context st S; cbn [expand_loop].
  - discriminate.
  - destruct (parse_directive content) as [m|]; [|discriminate].
    assert (A : answers_string (dispatch eval fuel recurse m context st).2).
    { unfold dispatch. destruct (directives !! _) as [h|].
      - now apply call_strings.
      - cbn. eauto. }
    destruct (dispatch _ _ _ _ _ _) as [st1 [v|e|]]; cbn in A.
    + destruct A as [s ->]. now apply IH.
    + cbn. congruence.
    + discriminate.
Qed.
End StringStep.

Lemma process_file_recursive_strings fuel :
  forall filename file_args d st,
    (forall sc, file_args = Some sc -> str_scope sc) ->
    (process_file_recursive fs eval fuel filename file_args d st).2
    <> Raise TypeError.
Proof.
  induction fuel as [|fuel IH]; intros filename file_args d st S;
    cbn [process_file_recursive]; [discriminate|].
  destruct (d >? 100); [discriminate|].
  destruct (on_path filename st); [discriminate|].
  destruct (read_file_content _ _ _) as [st1 content].
  pose proof (expand_loop_strings
                (stack_room eval
                   (mkContext (d + 1) (default ∅ file_args) filename))
                (process_file_recursive fs eval fuel)
                IH fuel content
                (mkContext (d + 1) (default ∅ file_args) filename) st1
                (str_scope_default file_args S)) as L.
  destruct (expand_loop _ _ _ _ _ _ _) as [st2 [t|e|]]; cbn in *;
    congruence.
Qed.
End StringScopes.

(** X10.  When every scope holds strings only (the one given at the call
    and every dictionary [eval] builds), no [TypeError] leaves the
    expansion: the replacement of a directive is always a string. *)
Theorem X10_string_scopes_no_type_error :
  forall fs eval fuel filename file_args d st,
    str_eval eval ->
    (forall sc, file_args = Some sc -> str_scope sc) ->
    snd (process_file_recursive fs eval fuel filename file_args d st)
    <> Raise TypeError.
Proof.
  intros fs eval fuel filename file_args d st E S.
  now apply process_file_recursive_strings.
Qed.

Lemma X10_string_scopes_no_type_error_witness :
  let fs := files [("doc", "[$arg who] [$file part {'who': 'me'}]");
                   ("part", "[$arg who]")] in
  let eval := eval_literals [("{'who': 'me'}", {[ "who" := VStr "me" ]})] in
  let file_args : option scope := Some {[ "who" := VStr "you" ]} in
  str_eval eval
  /\ (forall sc, file_args = Some sc -> str_scope sc)
  /\ process_file_recursive fs eval 4 "doc" file_args 0 initial
     = (mkState [] [] ["doc"; "part"], Ok "you me")
  /\ snd (process_file_recursive fs eval 4 "doc" file_args 0 initial)
     <> Raise TypeError.
Proof.
  intros fs eval file_args.
  assert (E : str_eval eval).
  { intros fr src d text H. unfold eval, eval_literals in H.
    cbn [run_eval literal_answer] in H.
    destruct (String.eqb src "{'who': 'me'}"); [|discriminate].
    inversion H; subst. intros k v L.
    apply lookup_singleton_Some in L as [_ <-]. eauto. }
  assert (S : forall sc, file_args = Some sc -> str_scope sc).
  { intros sc H. inversion H; subst. intros k v L.
    apply lookup_singleton_Some in L as [_ <-]. eauto. }
  split; [exact E|]. split; [exact S|].
  split; [vm_compute; reflexivity|].
  exact (X10_string_scopes_no_type_error fs eval 4 "doc" file_args 0 initial
           E S).
Defined.

(** ** No source twice on the stack *)

Section Stack.
Variable fs : filesystem.
Variable eval : evaluator.

Lemma stack_grows_refl st : stack_grows st st.
Proof. split; [reflexivity|trivial]. Qed.

Lemma stack_grows_trans st1 st2 st3 :
  stack_grows st1 st2 -> stack_grows st2 st3 -> stack_grows st1 st3.
Proof.
  intros [P1 N1] [P2 N2]. split; [now transitivity (current_path st2)|auto].
Qed.

Lemma stack_grows_same st st' :
  current_path st' = current_path st -> stack_grows st st'.
Proof. intros E. unfold stack_grows. rewrite E. split; [reflexivity|trivial]. Qed.

Lemma on_path_false filename st :
  on_path filename st = false -> filename ∉ current_path st.
Proof.
  unfold on_path. induction (current_path st) as [|x l IH]; cbn.
  - intros _ H. now apply elem_of_nil in H.
  - intros H. apply orb_false_elim in H as [H1 H2].
    intros E. apply elem_of_cons in E as [->|E].
    + now rewrite String.eqb_refl in H1.
    + now apply IH.
Qed.

Lemma stack_grows_push filename st :
  on_path filename st = false -> stack_grows st (push filename st).
Proof.
  intros H. split; cbn.
  - now apply prefix_app_r.
  - intros N. apply NoDup_app. split; [exact N|]. split.
    + intros x Hx E. apply list_elem_of_singleton in E. subst x.
      now apply on_path_false in H.
    + apply NoDup_singleton.
Qed.

Section StackStep.
Variable fuel : nat.
Variable recurse :
  string -> option scope -> Z -> state -> state * outcome string.
Hypothesis recurse_grows :
  forall filename file_args d st,
    stack_grows st (recurse filename file_args d st).1.

Lemma include_grows filename file_args context placeholder st :
  stack_grows st
    (include recurse filename file_args context placeholder st).1.
Proof.
  unfold include.
  pose proof (recurse_grows filename file_args (depth context) st) as R.
  destruct (recurse _ _ _ _) as [st1 [text|e|]]; cbn in *; try exact R.
  destruct e; cbn; try exact R;
    (eapply stack_grows_trans; [exact R|now apply stack_grows_same]).
Qed.

Lemma call_grows h args0 context st :
  stack_grows st (call eval fuel recurse h args0 context st).1.
Proof.
  destruct h; cbn [call].
  - unfold _handle_file.
    destruct args0 as [|filename rest]; [apply stack_grows_refl|].
    match goal with
    | |- context [parse_file_args _ ?fr _ _] =>
        pose proof (parse_file_args_path eval fr filename (head rest)) as P
    end.
    destruct (parse_file_args _ _ _ _) as [st1 [fa|e|]]; cbn in P;
      [|apply stack_grows_same; exact P..].
    eapply stack_grows_trans; [apply stack_grows_same; exact P|].
    apply include_grows.
  - unfold _handle_fileif.
    destruct args0 as [|filename [|check rest]];
      [apply stack_grows_refl|apply stack_grows_refl|].
    destruct (negb _); [now apply stack_grows_same|].
    match goal with
    | |- context [parse_file_args _ ?fr _ _] =>
        pose proof (parse_file_args_path eval fr filename (head rest)) as P
    end.
    destruct (parse_file_args _ _ _ _) as [st1 [fa|e|]]; cbn in P;
      [|apply stack_grows_same; exact P..].
    eapply stack_grows_trans; [apply stack_grows_same; exact P|].
    apply include_grows.
  - unfold _handle_arg. destruct args0; apply stack_grows_refl.
  - unfold _handle_python_eval. destruct args0; [apply stack_grows_refl|].
    destruct (run_eval eval _ _); now apply stack_grows_same.
  - unfold _handle_generate_recursive, generate_recursive_try.
    destruct (_ <? _)%nat; [apply stack_grows_refl|].
    destruct (args0 !! 0%nat) as [a0|]; cbn; [|now apply stack_grows_same].
    destruct (py_int _) as [level|]; cbn; [|now apply stack_grows_same].
    destruct (args0 !! 1%nat) as [pt|]; cbn; [|now apply stack_grows_same].
    destruct (args0 !! 2%nat) as [vn|]; cbn; [|now apply stack_grows_same].
    destruct (args0 !! 3%nat) as [op|]; cbn; [|now apply stack_grows_same].
    destruct (String.eqb _ _); [|apply stack_grows_refl].
    destruct (_generate_repeated_math_pattern _ _ _ _);
      [apply stack_grows_refl|now apply stack_grows_same].
Qed.

Lemma expand_loop_grows n :
  forall content context st,
    stack_grows st (expand_loop eval fuel recurse n content context st).1.
Proof.
  induction n as [|n IH]; intros content context st; cbn [expand_loop].
  - apply stack_grows_refl.
  - destruct (parse_directive content) as [m|]; [|apply stack_grows_refl].
    assert (D : stack_grows st (dispatch eval fuel recurse m context st).1).
    { unfold dispatch. destruct (directives !! _) as [h|].
      - apply call_grows.
      - now apply stack_grows_same. }
    destruct (dispatch _ _ _ _ _ _) as [st1 [[r|z|b| |t i]|e|]];
      cbn in D; try exact D.
    eapply stack_grows_trans; [exact D|apply IH].
Qed.
End StackStep.

Lemma process_file_recursive_grows fuel :
  forall filename file_args d st,
    stack_grows st
      (process_file_recursive fs eval fuel filename file_args d st).1.
Proof.
  induction fuel as [|fuel IH]; intros filename file_args d st;
    cbn [process_file_recursive]; [apply stack_grows_refl|].
  destruct (d >? 100); [apply stack_grows_refl|].
  destruct (on_path filename st) eqn:O; [apply stack_grows_refl|].
  pose proof (read_file_content_path fs filename (push filename st)) as P.
  destruct (read_file_content _ _ _) as [st1 content]. cbn in P.
  assert (G1 : stack_grows st st1).
  { eapply stack_grows_trans; [exact (stack_grows_push filename st O)|].
    now apply stack_grows_same. }
  pose proof (expand_loop_grows
                (stack_room eval
                   (mkContext (d + 1) (default ∅ file_args) filename))
                (process_file_recursive fs eval fuel)
                IH fuel content
                (mkContext (d + 1) (default ∅ file_args) filename) st1) as L.
  destruct (expand_loop _ _ _ _ _ _ _) as [st2 [t|e|]] eqn:E; cbn in *.
  - apply expand_loop_balanced in E;
      [|apply process_file_recursive_balanced].
    apply stack_grows_same. cbn. rewrite E, P. cbn.
    apply removelast_last.
  - eapply stack_grows_trans; eassumption.
  - eapply stack_grows_trans; eassumption.
Qed.
End Stack.

(** X11.  However a call of [process_file_recursive] ends, with a buffer,
    with any exception or with no answer yet, the stack it leaves is the
    stack it found with, maybe, sources added at its end, and no source is
    on it twice when none was before. *)
Theorem X11_stack_never_repeats :
  forall fs eval fuel filename file_args d st st' o,
    process_file_recursive fs eval fuel filename file_args d st = (st', o) ->
    NoDup (current_path st) ->
    NoDup (current_path st')
    /\ current_path st `prefix_of` current_path st'.
Proof.
  intros fs eval fuel filename file_args d st st' o H N.
  pose proof (process_file_recursive_grows fs eval fuel filename file_args
                d st) as [P Q].
  rewrite H in P, Q. cbn in P, Q. split; [now apply Q|exact P].
Qed.

Lemma X11_stack_never_repeats_witness :
  let fs := files [("doc", "[$file part]"); ("part", "[$fileif f]")] in
  let st := mkState ["main"] [] [] in
  process_file_recursive fs no_eval 3 "doc" None 1 st
  = (mkState ["main"; "doc"; "part"] [] ["doc"; "part"], Raise IndexError)
  /\ NoDup (current_path st)
  /\ NoDup ["main"; "doc"; "part"]
  /\ ["main"] `prefix_of` ["main"; "doc"; "part"].
Proof.
  intros fs st.
  assert (H : process_file_recursive fs no_eval 3 "doc" None 1 st
              = (mkState ["main"; "doc"; "part"] [] ["doc"; "part"],
                 Raise IndexError)) by (vm_compute; reflexivity).
  assert (N : NoDup (current_path st))
    by (apply NoDup_singleton).
  split; [exact H|]. split; [exact N|].
  exact (X11_stack_never_repeats fs no_eval 3 "doc" None 1 st _ _ H N).
Defined.

(** ** The handlers at their edges *)

(** X12.  With a gate that is true, [fileif] is [file] without the gate
    key, after the print of the gate.  The literal is evaluated in the frame
    of the handler, which in [fileif] holds the gate key and one argument
    more; when it evaluates alike in the two, the same source is expanded
    at the same depth with the same dictionary, and the two handlers answer
    alike, whatever the expansion gives, but for the two conditions they
    catch: [fileif] then answers [[# $file <name>]], and [file]
    [[# $file <name>: infinite loop]]. *)
Theorem X12_fileif_open_gate_is_file :
  forall eval recurse filename check rest context st st1 file_args st2 o,
    truthy (default (VBool false) (ctx_args context !! check)) = true ->
    let st0 :=
      print (GateTrace check (ctx_args context)
               (default (VBool false) (ctx_args context !! check))) st in
    parse_file_args eval (mkFrame AtFile (filename :: rest) context st0)
      filename (head rest)
    = (st1, Ok file_args) ->
    parse_file_args eval
      (mkFrame AtFileif (filename :: check :: rest) context st0)
      filename (head rest)
    = (st1, Ok file_args) ->
    recurse filename file_args (depth context) st1 = (st2, o) ->
    let by_fileif :=
      _handle_fileif eval recurse (filename :: check :: rest) context st in
    let by_file := _handle_file eval recurse (filename :: rest) context st0 in
    match o with
    | Raise (CircularReferenceError msg) | Raise (RecursionError msg) =>
        by_fileif
        = (print (ErrProcessing filename msg) st2,
           Ok (VStr ("[# $file " +:+ filename +:+ "]")))
        /\ by_file
           = (print (ErrProcessing filename msg) st2,
              Ok (VStr ("[# $file " +:+ filename +:+ ": infinite loop]")))
    | _ => by_fileif = by_file
    end.
Proof.
  intros eval recurse filename check rest context st st1 file_args st2 o
         T st0 P1 P2 R by_fileif by_file.
  assert (F1 : by_fileif
               = include recurse filename file_args context
                   ("[# $file " +:+ filename +:+ "]") st1).
  { unfold by_fileif, _handle_fileif. rewrite T. cbn [negb].
    fold st0. cbn [head] in P2 |- *. now rewrite P2. }
  assert (F2 : by_file
               = include recurse filename file_args context
                   ("[# $file " +:+ filename +:+ ": infinite loop]") st1).
  { unfold by_file, _handle_file. now rewrite P1. }
  rewrite F1, F2. unfold include. rewrite R.
  destruct o as [text|e|]; [reflexivity| |reflexivity].
  destruct e; try reflexivity; now split.
Qed.

Lemma X12_fileif_open_gate_is_file_witness :
  let fs := files [("doc", "[$fileif part on {'a': '1'}]");
                   ("part", "a=[$arg a]")] in
  let eval := eval_literals [("{'a': '1'}", {[ "a" := VStr "1" ]})] in
  let context := mkContext 1 {[ "on" := VStr "yes" ]} "doc" in
  let st := mkState ["doc"] [] ["doc"] in
  let st0 := print (GateTrace "on" (ctx_args context) (VStr "yes")) st in
  truthy (default (VBool false) (ctx_args context !! "on")) = true
  /\ process_file_recursive fs eval 3 "part"
       (Some {[ "a" := VStr "1" ]}) 1 st0
     = (mkState ["doc"] (console st0) ["doc"; "part"], Ok "a=1")
  /\ _handle_fileif eval (process_file_recursive fs eval 3)
       ["part"; "on"; "{'a': '1'}"] context st
     = _handle_file eval (process_file_recursive fs eval 3)
         ["part"; "{'a': '1'}"] context st0.
Proof.
  intros fs eval context st st0.
  assert (T : truthy (default (VBool false) (ctx_args context !! "on"))
              = true) by (vm_compute; reflexivity).
  assert (R : process_file_recursive fs eval 3 "part"
                (Some {[ "a" := VStr "1" ]}) (depth context) st0
              = (mkState ["doc"] (console st0) ["doc"; "part"], Ok "a=1"))
    by (vm_compute; reflexivity).
  split; [exact T|]. split; [exact R|].
  exact (X12_fileif_open_gate_is_file eval (process_file_recursive fs eval 3)
           "part" "on" ["{'a': '1'}"] context st st0
           (Some {[ "a" := VStr "1" ]}) _ _ T eq_refl eq_refl R).
Defined.

(** X13.  Three arguments are never enough for [generate_recursive]: the
    test on the number of arguments lets them through, the operator is
    then missing, and, whatever the level, the type and the scope, the
    handler prints its error and answers with the echo of the directive. *)
Theorem X13_generate_recursive_three_arguments :
  forall frames a b c context st,
    _handle_generate_recursive frames [a; b; c] context st
    = (print ErrGenerate st,
       Ok (VStr ("[$generate_recursive " +:+ Str.join " " [a; b; c]
                 +:+ "]"))).
Proof.
  intros frames a b c context st.
  unfold _handle_generate_recursive, generate_recursive_try. cbn.
  now destruct (py_int _).
Qed.

(** X14.  A level key that the scope does not bind stands for level 0:
    the handler answers with the variable of index 0, whatever the stack of
    the interpreter still takes. *)
Theorem X14_generate_recursive_unbound_level :
  forall frames a0 prefix op rest context st,
    ctx_args context !! a0 = None ->
    _handle_generate_recursive frames (a0 :: "math" :: prefix :: op :: rest)
      context st
    = (st, Ok (VStr ("[VAR " +:+ prefix +:+ "0]"))).
Proof.
  intros frames a0 prefix op rest context st U.
  unfold _handle_generate_recursive, generate_recursive_try. cbn.
  rewrite U. reflexivity.
Qed.

Lemma X14_generate_recursive_unbound_level_witness :
  let context := mkContext 1 {[ "other" := VStr "3" ]} "doc" in
  ctx_args context !! "lvl" = None
  /\ _handle_generate_recursive 0 ["lvl"; "math"; "v"; "+"] context initial
     = (initial, Ok (VStr "[VAR v0]")).
Proof.
  intros context.
  assert (U : ctx_args context !! "lvl" = None) by (vm_compute; reflexivity).
  split; [exact U|].
  exact (X14_generate_recursive_unbound_level 0 "lvl" "v" "+" [] context
           initial U).
Defined.

(** X15.  A level that [int()] refuses (a text that is no integer, [None])
    is caught inside the handler: it prints its error and answers with the
    echo of the directive, whatever the other arguments are. *)
Theorem X15_generate_recursive_bad_level :
  forall frames a0 rest context st,
    (3 <= length (a0 :: rest))%nat ->
    py_int (default (VStr "0") (ctx_args context !! a0)) = None ->
    _handle_generate_recursive frames (a0 :: rest) context st
    = (print ErrGenerate st,
       Ok (VStr ("[$generate_recursive " +:+ Str.join " " (a0 :: rest)
                 +:+ "]"))).
Proof.
  intros frames a0 rest context st L P.
  unfold _handle_generate_recursive, generate_recursive_try.
  destruct (length (a0 :: rest) <? 3)%nat eqn:Q;
    [apply Nat.ltb_lt in Q; lia|].
  cbn [lookup list_lookup mbind option_bind]. rewrite P. reflexivity.
Qed.

Lemma X15_generate_recursive_bad_level_witness :
  let context := mkContext 1 {[ "lvl" := VStr "two" ]} "doc" in
  (3 <= length ["lvl"; "math"; "v"; "+"])%nat
  /\ py_int (default (VStr "0") (ctx_args context !! "lvl")) = None
  /\ _handle_generate_recursive 5 ["lvl"; "math"; "v"; "+"] context initial
     = (mkState [] [ErrGenerate] [],
        Ok (VStr "[$generate_recursive lvl math v +]")).
Proof.
  intros context.
  assert (L : (3 <= length ["lvl"; "math"; "v"; "+"])%nat) by (cbn; lia).
  assert (P : py_int (default (VStr "0") (ctx_args context !! "lvl")) = None)
    by (vm_compute; reflexivity).
  split; [exact L|]. split; [exact P|].
  exact (X15_generate_recursive_bad_level 5 "lvl" ["math"; "v"; "+"] context
           initial L P).
Defined.

(** X16.  A dictionary literal that does not evaluate (an [Exception] is
    raised), or that evaluates to something that is no dictionary, is
    dropped with a warning: the inclusion goes on as if the literal were
    not there. *)
Theorem X16_bad_literal_is_dropped :
  forall eval recurse filename literal rest context st,
    let answer :=
      run_eval eval (mkFrame AtFile (filename :: literal :: rest) context st)
        literal in
    (forall d text, answer <> EvalValue (Some d) text) ->
    answer <> EvalExits ->
    exists warning,
      (warning = WarnArgsNotDict filename \/ warning = WarnArgsParse filename)
      /\ _handle_file eval recurse (filename :: literal :: rest) context st
         = _handle_file eval recurse [filename] context (print warning st).
Proof.
  intros eval recurse filename literal rest context st answer N X.
  unfold _handle_file. cbn [head parse_file_args fr_self].
  fold answer. destruct answer as [| |[d|] text] eqn:E.
  - exists (WarnArgsParse filename). split; [now right|reflexivity].
  - now destruct X.
  - now destruct (N d text).
  - exists (WarnArgsNotDict filename). split; [now left|reflexivity].
Qed.

Lemma X16_bad_literal_is_dropped_witness :
  let recurse : string -> option scope -> Z -> state -> state * outcome string
    := fun name _ _ st => (st, Ok name) in
  let answer :=
    run_eval no_eval
      (mkFrame AtFile ["part"; "{oops"] (mkContext 1 ∅ "doc") initial)
      "{oops" in
  (forall d text, answer <> EvalValue (Some d) text)
  /\ answer <> EvalExits
  /\ exists warning,
      (warning = WarnArgsNotDict "part" \/ warning = WarnArgsParse "part")
      /\ _handle_file no_eval recurse ["part"; "{oops"] (mkContext 1 ∅ "doc")
           initial
         = _handle_file no_eval recurse ["part"] (mkContext 1 ∅ "doc")
             (print warning initial).
Proof.
  intros recurse answer.
  assert (N : forall d text, answer <> EvalValue (Some d) text)
    by (intros d text; discriminate).
  assert (X : answer <> EvalExits) by discriminate.
  split; [exact N|]. split; [exact X|].
  exact (X16_bad_literal_is_dropped no_eval recurse "part" "{oops" []
           (mkContext 1 ∅ "doc") initial N X).
Defined.

(** ** The top of the run *)



(** X18.  A name bound to a value that is no string (the integer [main]
    binds to [_bppcomp], say) cannot be substituted: when the first
    directive of a source is [arg] of such a name, the expansion fails with
    [TypeError], and the source stays on the stack. *)
Theorem X18_arg_of_non_string_fails :
  forall fs eval fuel filename content m name rest sc v d st,
    fs filename = FileContent content ->
    parse_directive content = Some m ->
    directive_name m = "arg" ->
    args m = name :: rest ->
    sc !! name = Some v ->
    (forall s, v <> VStr s) ->
    d <= 100 -> on_path filename st = false ->
    process_file_recursive fs eval (2 + fuel) filename (Some sc) d st
    = (mkState (current_path st ++ [filename]) (console st)
         (opened st ++ [filename]),
       Raise TypeError).
Proof.
  intros fs eval fuel filename content m name rest sc v d st
         F P Dn Da L V Hd Hp.
  change (2 + fuel)%nat with (S (S fuel)).
  rewrite (nested_frame_scope fs eval (S fuel) filename content)
    by assumption.
  cbn [expand_loop]. rewrite P. unfold dispatch. rewrite Dn.
  replace (directives !! "arg") with (Some HArg) by (vm_compute; reflexivity).
  cbn [call]. rewrite Da. unfold _handle_arg. cbn [ctx_args].
  change (default ∅ (Some sc)) with sc. rewrite L.
  destruct v as [s| | | |]; [now destruct (V s)| | | |]; reflexivity.
Qed.

Lemma X18_arg_of_non_string_fails_witness :
  let fs := files [("doc", "v[$arg _bppcomp]")] in
  let m := mkDirectiveMatch "[$arg _bppcomp]" "arg" ["_bppcomp"] 1 16 in
  fs "doc" = FileContent "v[$arg _bppcomp]"
  /\ parse_directive "v[$arg _bppcomp]" = Some m
  /\ initial_args [("name", "x")] !! "_bppcomp" = Some (VInt 1)
  /\ process_file_recursive fs no_eval 2 "doc"
       (Some (initial_args [("name", "x")])) 0 initial
     = (mkState ["doc"] [] ["doc"], Raise TypeError).
Proof.
  intros fs m.
  assert (F : fs "doc" = FileContent "v[$arg _bppcomp]") by reflexivity.
  assert (P : parse_directive "v[$arg _bppcomp]" = Some m)
    by (vm_compute; reflexivity).
  assert (L : initial_args [("name", "x")] !! "_bppcomp" = Some (VInt 1))
    by (vm_compute; reflexivity).
  split; [exact F|]. split; [exact P|]. split; [exact L|].
  refine (X18_arg_of_non_string_fails fs no_eval 0 "doc" _ m "_bppcomp" []
            _ (VInt 1) 0 initial F P eq_refl eq_refl L _ _ eq_refl);
    [discriminate|lia].
Defined.

Module ScopeFacts.

Lemma define_other (k : string) :
  forall (define : list (string * string)) (acc : scope),
    k ∉ define.*1 ->
    foldl (fun acc kv => <[kv.1 := VStr kv.2]> acc) acc define !! k
    = acc !! k.
Proof.
  induction define as [|[k' v'] define IH]; intros acc N; cbn.
  - reflexivity.
  - cbn in N. apply not_elem_of_cons in N as [N1 N2].
    rewrite IH by exact N2. now apply lookup_insert_ne.
Qed.

End ScopeFacts.

(** X19.  The scope [main] hands to the expansion: of several definitions
    of a key on the command line the last one wins, also over the two
    entries [main] puts in first; a key the command line does not define
    has the value of those entries, if it is one of them, and none
    otherwise. *)
Theorem X19_initial_scope :
  forall define more k v,
    k ∉ more.*1 ->
    initial_args (define ++ ((k, v) :: more)) !! k = Some (VStr v)
    /\ initial_args more !! k
       = (if String.eqb k "_bppcomp" then Some (VInt 1)
          else if String.eqb k "_preproc_version"
               then Some (VStr "2024.11.23.1")
               else None).
Proof.
  intros define more k v N. unfold initial_args. split.
  - rewrite foldl_app. cbn [foldl].
    rewrite ScopeFacts.define_other by exact N.
    cbn. apply lookup_insert_eq.
  - rewrite ScopeFacts.define_other by exact N. unfold fixed_args.
    destruct (String.eqb k "_bppcomp") eqn:E1.
    + apply String.eqb_eq in E1. subst k. apply lookup_insert_eq.
    + apply String.eqb_neq in E1.
      rewrite lookup_insert_ne by congruence.
      destruct (String.eqb k "_preproc_version") eqn:E2.
      * apply String.eqb_eq in E2. subst k. apply lookup_insert_eq.
      * apply String.eqb_neq in E2.
        rewrite lookup_insert_ne by congruence. apply lookup_empty.
Qed.

Lemma X19_initial_scope_witness :
  ("_bppcomp" ∉ [("lvl", "2")].*1)
  /\ initial_args [("_bppcomp", "0"); ("_bppcomp", "yes"); ("lvl", "2")]
       !! "_bppcomp"
     = Some (VStr "yes")
  /\ initial_args [("lvl", "2")] !! "_bppcomp" = Some (VInt 1).
Proof.
  assert (N : "_bppcomp" ∉ [("lvl", "2")].*1).
  { cbn. intros H. apply list_elem_of_singleton in H. discriminate. }
  split; [exact N|].
  exact (X19_initial_scope [("_bppcomp", "0")] [("lvl", "2")] "_bppcomp"
           "yes" N).
Defined.

(** ** Inclusions that are refused *)

(** X20.  An inclusion made from a frame whose depth is above 100, or of a
    source that is being expanded, is refused before anything is read: the
    directive becomes [[# $file <name>: infinite loop]], the reason is
    printed, no file is opened and the stack is untouched.  The literal of
    the directive is evaluated first: an expression in it that exits the
    interpreter does so before the inclusion is refused. *)
Theorem X20_refused_inclusion :
  forall fs eval fuel target rest context st,
    depth context > 100 \/ on_path target st = true ->
    let evaluated :=
      parse_file_args eval (mkFrame AtFile (target :: rest) context st)
        target (head rest) in
    let st1 := evaluated.1 in
    let msg := if depth context >? 100 then depth_message
               else circular_message st target in
    _handle_file eval (process_file_recursive fs eval (S fuel))
      (target :: rest) context st
    = match evaluated.2 with
      | Ok _ =>
          (print (ErrProcessing target msg) st1,
           Ok (VStr ("[# $file " +:+ target +:+ ": infinite loop]")))
      | Raise e => (st1, Raise e)
      | OutOfFuel => (st1, OutOfFuel)
      end
    /\ (evaluated.2 = Raise BaseException \/ exists fa, evaluated.2 = Ok fa)
    /\ (rest = [] -> evaluated = (st, Ok None))
    /\ opened st1 = opened st
    /\ current_path st1 = current_path st.
Proof.
  intros fs eval fuel target rest context st H evaluated st1 msg.
  assert (P : current_path st1 = current_path st)
    by apply parse_file_args_path.
  assert (O : opened st1 = opened st).
  { unfold st1, evaluated, parse_file_args.
    destruct (head rest) as [src|]; [|reflexivity].
    destruct (run_eval eval _ src) as [| |[d|] text]; reflexivity. }
  assert (A : evaluated.2 = Raise BaseException
              \/ exists fa, evaluated.2 = Ok fa).
  { unfold evaluated, parse_file_args.
    destruct (head rest) as [src|]; [|right; now eexists].
    destruct (run_eval eval _ src) as [| |[d|] text];
      first [now left|right; now eexists]. }
  assert (N : rest = [] -> evaluated = (st, Ok None))
    by (intros ->; reflexivity).
  split; [|now repeat split].
  unfold _handle_file. fold evaluated. unfold msg, st1 in *.
  clearbody evaluated. clear A N O.
  destruct evaluated as [st1' [fa|e|]]; cbn [fst snd] in *;
    [|reflexivity..].
  unfold include. cbn [process_file_recursive].
  destruct (depth context >? 100) eqn:G; [reflexivity|].
  destruct H as [H|H]; [lia|].
  assert (H1 : on_path target st1' = true)
    by (unfold on_path in *; now rewrite P).
  rewrite H1. unfold circular_message. now rewrite P.
Qed.

Lemma X20_refused_inclusion_witness :
  let st := mkState ["doc"; "part"] [] ["doc"; "part"] in
  (depth (mkContext 2 ∅ "part") > 100 \/ on_path "doc" st = true)
  /\ _handle_file no_eval
       (process_file_recursive (files [("doc", "[$file part]")]) no_eval 1)
       ["doc"] (mkContext 2 ∅ "part") st
     = (print (ErrProcessing "doc"
                 "Circular reference detected: doc -> part -> doc") st,
        Ok (VStr "[# $file doc: infinite loop]")).
Proof.
  intros st.
  assert (H : depth (mkContext 2 ∅ "part") > 100 \/ on_path "doc" st = true)
    by (right; reflexivity).
  split; [exact H|].
  exact (proj1 (X20_refused_inclusion (files [("doc", "[$file part]")])
                  no_eval 0 "doc" [] (mkContext 2 ∅ "part") st H)).
Defined.
